(** * Magnetostatics: static magnetic fields of a dipole and of wires

    A shallow embedding of [plasmapy/physics/magnetostatics.py] and the
    properties of its five field sources.

    Number model.  NumPy's float64 values are read as real numbers, with one
    extra value for everything that is not a finite number ([inf], [-inf],
    [nan]).  Rounding, overflow and underflow are not modelled.  NumPy does
    not raise on a division by zero (it warns and returns [inf] or [nan]);
    the quotient is the extra value here.  Every arithmetic operation with
    a non-finite operand is non-finite again; for this program that is what
    IEEE 754 gives, since every division by zero that can be reached from
    finite arguments feeds a [nan] into the result.  Python's own [/] on
    plain numbers raises [ZeroDivisionError] instead. *)

From Stdlib Require Import Reals Lra Lia ZArith List String.
Import ListNotations.
Open Scope R_scope.

(** ** Floating-point values *)

Inductive npfloat : Type :=
| Fin (x : R)
| NonFinite.

Definition lift1 (f : R -> R) (a : npfloat) : npfloat :=
  match a with
  | Fin x => Fin (f x)
  | NonFinite => NonFinite
  end.

Definition lift2 (f : R -> R -> R) (a b : npfloat) : npfloat :=
  match a, b with
  | Fin x, Fin y => Fin (f x y)
  | _, _ => NonFinite
  end.

Definition fadd : npfloat -> npfloat -> npfloat := lift2 Rplus.
Definition fsub : npfloat -> npfloat -> npfloat := lift2 Rminus.
Definition fmul : npfloat -> npfloat -> npfloat := lift2 Rmult.
Definition fneg : npfloat -> npfloat := lift1 Ropp.
Definition fcos : npfloat -> npfloat := lift1 cos.
Definition fsin : npfloat -> npfloat := lift1 sin.

(** [a / b] on arrays: no exception on a zero divisor. *)
Definition fdiv (a b : npfloat) : npfloat :=
  match a, b with
  | Fin x, Fin y => if Req_dec_T y 0 then NonFinite else Fin (x / y)
  | _, _ => NonFinite
  end.

(** [a ** k] for a literal exponent [k]. *)
Definition fpow (a : npfloat) (k : nat) : npfloat :=
  match a with
  | Fin x => Fin (x ^ k)
  | NonFinite => NonFinite
  end.

Definition fsqrt (a : npfloat) : npfloat :=
  match a with
  | Fin x => if Rlt_dec x 0 then NonFinite else Fin (sqrt x)
  | NonFinite => NonFinite
  end.

(** [a == b]: false as soon as one side is not a finite number (the only
    comparison of a computed value in the program is against [0]). *)
Definition feqb (a b : npfloat) : bool :=
  match a, b with
  | Fin x, Fin y => if Req_dec_T x y then true else false
  | _, _ => false
  end.

(** ** Three-dimensional vectors *)

Record vec3 (A : Type) : Type := V3 { vx : A; vy : A; vz : A }.
Arguments V3 {A} _ _ _.
Arguments vx {A} _.
Arguments vy {A} _.
Arguments vz {A} _.

(** Vectors of reals: the arguments callers pass, and the language in which
    the specification states its formulas. *)
Definition rvec : Type := vec3 R.
(** Vectors of floating-point values: what the program computes. *)
Definition fvec : Type := vec3 npfloat.

Definition vmap {A B : Type} (f : A -> B) (v : vec3 A) : vec3 B :=
  V3 (f (vx v)) (f (vy v)) (f (vz v)).

Definition vmap2 {A B C : Type} (f : A -> B -> C) (u : vec3 A) (v : vec3 B)
  : vec3 C :=
  V3 (f (vx u) (vx v)) (f (vy u) (vy v)) (f (vz u) (vz v)).

Definition vfin (v : rvec) : fvec := vmap Fin v.

(** *** Real vector algebra *)

Module RVec.

Definition zero : rvec := V3 0 0 0.
Definition add : rvec -> rvec -> rvec := vmap2 Rplus.
Definition sub : rvec -> rvec -> rvec := vmap2 Rminus.
Definition opp : rvec -> rvec := vmap Ropp.
Definition scale (k : R) : rvec -> rvec := vmap (Rmult k).
Definition divs (v : rvec) (k : R) : rvec := vmap (fun x => x / k) v.

Definition dot (u v : rvec) : R :=
  vx u * vx v + vy u * vy v + vz u * vz v.

Definition cross (u v : rvec) : rvec :=
  V3 (vy u * vz v - vz u * vy v)
     (vz u * vx v - vx u * vz v)
     (vx u * vy v - vy u * vx v).

Definition norm (v : rvec) : R :=
  sqrt (vx v * vx v + vy v * vy v + vz v * vz v).

Definition normalize (v : rvec) : rvec := divs v (norm v).

Fixpoint sum (l : list rvec) : rvec :=
  match l with
  | [] => zero
  | v :: l' => add v (sum l')
  end.

End RVec.

(** *** NumPy operations on length-3 arrays *)

Definition fvzero : fvec := V3 (Fin 0) (Fin 0) (Fin 0).
(** An array none of whose entries is a finite number. *)
Definition nonfinite_vec : fvec := V3 NonFinite NonFinite NonFinite.
Definition fvadd : fvec -> fvec -> fvec := vmap2 fadd.
Definition fvsub : fvec -> fvec -> fvec := vmap2 fsub.
Definition fvneg : fvec -> fvec := vmap fneg.
(** [k * v] and [v * k], a scalar broadcast over an array. *)
Definition fvscale (k : npfloat) (v : fvec) : fvec := vmap (fmul k) v.
Definition fvmuls (v : fvec) (k : npfloat) : fvec :=
  vmap (fun x => fmul x k) v.
(** [v / k]. *)
Definition fvdivs (v : fvec) (k : npfloat) : fvec :=
  vmap (fun x => fdiv x k) v.

(** [np.dot(u, v)]. *)
Definition np_dot (u v : fvec) : npfloat :=
  fadd (fadd (fmul (vx u) (vx v)) (fmul (vy u) (vy v))) (fmul (vz u) (vz v)).

(** [np.cross(u, v)]. *)
Definition np_cross (u v : fvec) : fvec :=
  V3 (fsub (fmul (vy u) (vz v)) (fmul (vz u) (vy v)))
     (fsub (fmul (vz u) (vx v)) (fmul (vx u) (vz v)))
     (fsub (fmul (vx u) (vy v)) (fmul (vy u) (vx v))).

(** [np.linalg.norm(v)]: the square root of the sum of the squares. *)
Definition np_norm (v : fvec) : npfloat :=
  fsqrt (fadd (fadd (fmul (vx v) (vx v)) (fmul (vy v) (vy v)))
              (fmul (vz v) (vz v))).

(** [np.all(u == v)] on two arrays of finite numbers. *)
Definition np_all_eq (u v : rvec) : bool :=
  if Req_dec_T (vx u) (vx v) then
    if Req_dec_T (vy u) (vy v) then
      if Req_dec_T (vz u) (vz v) then true else false
    else false
  else false.

(** ** Exceptions *)

Inductive exn : Type :=
| ValueError (msg : string)
| ZeroDivisionError.

Inductive result (A : Type) : Type :=
| Ok (a : A)
| Raise (e : exn).
Arguments Ok {A} _.
Arguments Raise {A} _.

(** A value that is either a NumPy scalar or a length-3 array: the
    accumulator [B] of [GeneralWire.magnetic_field] starts as the scalar
    [0] and becomes an array at the first [+=]. *)
Inductive ndvalue : Type :=
| Scalar (x : npfloat)
| Array (v : fvec).

Definition nd_iadd (B : ndvalue) (v : fvec) : ndvalue :=
  match B with
  | Scalar x => Array (fvadd (V3 x x x) v)
  | Array b => Array (fvadd b v)
  end.

Definition nd_muls (B : ndvalue) (k : npfloat) : ndvalue :=
  match B with
  | Scalar x => Scalar (fmul x k)
  | Array b => Array (fvmuls b k)
  end.

Definition nd_divs (B : ndvalue) (k : npfloat) : ndvalue :=
  match B with
  | Scalar x => Scalar (fdiv x k)
  | Array b => Array (fvdivs b k)
  end.

(** [np.matmul] of a (1, n) row of weights with an (n, 3) matrix given by
    its rows, squeezed to a length-3 array. *)
Fixpoint np_matmul_row (w : list npfloat) (m : list fvec) : fvec :=
  match w, m with
  | wk :: w', fk :: m' => fvadd (fvscale wk fk) (np_matmul_row w' m')
  | _, _ => fvzero
  end.

(** ** class MagneticDipole

    Quantities arrive converted to SI units; [moment.to(...).value] and
    [p0.to(u.m).value] are the numbers themselves, and the [u.T] tag on
    every returned field is left out. *)

Module MagneticDipole.

Record t : Type := { moment : rvec; p0 : rvec }.

Definition init (moment p0 : rvec) : result t :=
  Ok {| moment := moment; p0 := p0 |}.

Section Field.
Variable mu0 : R.

Definition magnetic_field (self : t) (p : rvec) : fvec :=
  let r := fvsub (vfin p) (vfin (p0 self)) in
  let m := vfin (moment self) in
  fvscale (Fin (mu0 / 4 / PI))
    (fvsub (fvdivs (fvmuls (fvscale (Fin 3) r) (np_dot m r))
                   (fpow (np_norm r) 5))
           (fvdivs m (fpow (np_norm r) 3))).

End Field.
End MagneticDipole.

(** ** class GeneralWire *)

(** The first argument of the constructor is any Python object; the only
    thing the constructor asks of it is [callable(parametric_eq)].  A
    callable is taken as a total function from the parameter to a point. *)
Inductive pyobj : Type :=
| PyCallable (f : R -> fvec)
| PyOther.

Module GeneralWire.

Record t : Type :=
  { parametric_eq : R -> fvec; t1 : R; t2 : R; current : R }.

Definition init (parametric_eq : pyobj) (t1 t2 current : R) : result t :=
  match parametric_eq with
  | PyCallable f =>
      if Rlt_dec t1 t2
      then Ok {| parametric_eq := f; t1 := t1; t2 := t2; current := current |}
      else Raise (ValueError "t1 is not smaller than t2")
  | PyOther => Raise (ValueError "Argument parametric_eq should be a callable")
  end.

(** The body of [for i in range(n)], run [k] more times from the loop
    state [(t, p1, B)]. *)
Fixpoint loop (f : R -> fvec) (p : fvec) (step : R) (k : nat)
  (t : R) (p1 : fvec) (B : ndvalue) : ndvalue :=
  match k with
  | O => B
  | S k' =>
      let t := t + step in
      let p2 := f t in
      let dl := fvsub p2 p1 in
      let p1 := p2 in
      let R := fvsub p (fvdivs (fvadd p2 p1) (Fin 2)) in
      let B := nd_iadd B (fvdivs (np_cross dl R) (fpow (np_norm R) 3)) in
      loop f p step k' t p1 B
  end.

Section Field.
Variable mu0 : R.

(** [t1], [t2] are Python numbers and [n] a Python [int]: the quotient
    [(t2 - t1) / n] raises when [n] is [0]; [range(n)] is empty for a
    negative [n]. *)
Definition magnetic_field (self : t) (p : rvec) (n : Z) : result ndvalue :=
  let p1 := parametric_eq self (t1 self) in
  if Z.eqb n 0 then Raise ZeroDivisionError
  else
    let step := (t2 self - t1 self) / IZR n in
    let B := loop (parametric_eq self) (vfin p) step (Z.to_nat n)
                  (t1 self) p1 (Scalar (Fin 0)) in
    Ok (nd_muls (nd_divs (nd_divs (nd_muls B (Fin mu0)) (Fin 4)) (Fin PI))
                (Fin (current self))).

End Field.
End GeneralWire.

(** ** class FiniteStraightWire *)

Module FiniteStraightWire.

Record t : Type := { p1 : rvec; p2 : rvec; current : R }.

Definition init (p1 p2 : rvec) (current : R) : result t :=
  if np_all_eq p1 p2
  then Raise (ValueError "p1, p2 should not be the same point.")
  else Ok {| p1 := p1; p2 := p2; current := current |}.

Section Field.
Variable mu0 : R.

Definition magnetic_field (self : t) (p : rvec) : fvec :=
  let p := vfin p in
  let p1 := vfin (p1 self) in
  let p2 := vfin (p2 self) in
  let p2_p1 := fvsub p2 p1 in
  let ratio := fdiv (np_dot (fvsub p p1) p2_p1) (np_dot p2_p1 p2_p1) in
  let pf := fvadd p1 (fvmuls p2_p1 ratio) in
  let cos_theta_1 :=
    fdiv (fdiv (np_dot (fvsub p p1) p2_p1) (np_norm (fvsub p p1)))
         (np_norm p2_p1) in
  let cos_theta_2 :=
    fdiv (fdiv (np_dot (fvsub p p2) p2_p1) (np_norm (fvsub p p2)))
         (np_norm p2_p1) in
  let B_unit := np_cross p2_p1 (fvsub p pf) in
  let B_unit := fvdivs B_unit (np_norm B_unit) in
  fvmuls
    (fvdivs
       (fvdivs
          (fvmuls
             (fvmuls (fvdivs B_unit (np_norm (fvsub p pf)))
                     (fsub cos_theta_1 cos_theta_2))
             (Fin mu0))
          (Fin 4))
       (Fin PI))
    (Fin (current self)).

End Field.

Definition to_GeneralWire (self : t) : result GeneralWire.t :=
  let p1 := vfin (p1 self) in
  let p2 := vfin (p2 self) in
  GeneralWire.init
    (PyCallable (fun t => fvadd p1 (fvmuls (fvsub p2 p1) (Fin t))))
    0 1 (current self).

End FiniteStraightWire.

(** ** class InfiniteStraightWire *)

Module InfiniteStraightWire.

Record t : Type := { direction : fvec; p0 : rvec; current : R }.

Definition init (direction p0 : rvec) (current : R) : result t :=
  Ok {| direction := fvdivs (vfin direction) (np_norm (vfin direction));
        p0 := p0;
        current := current |}.

Section Field.
Variable mu0 : R.

Definition magnetic_field (self : t) (p : rvec) : fvec :=
  let r := np_cross (direction self) (fvsub (vfin p) (vfin (p0 self))) in
  let B_unit := fvdivs r (np_norm r) in
  let r := np_norm r in
  fvmuls
    (fvdivs (fvdivs (fvmuls (fvdivs B_unit r) (Fin mu0)) (Fin 2)) (Fin PI))
    (Fin (current self)).

End Field.
End InfiniteStraightWire.

(** ** class CircularWire *)

Module CircularWire.

(** [roots_legendre] holds the cached result of
    [scipy.special.roots_legendre(n)], the nodes [x] and the weights [w],
    kept as the list of the pairs [(x_k, w_k)].  The closure [curve] reads
    [axis_x], [axis_y], [radius] and [center], which never change after
    construction: it is the function [curve] below and needs no field. *)
Record t : Type :=
  { normal : fvec;
    center : rvec;
    radius : R;
    current : R;
    axis_x : fvec;
    axis_y : fvec;
    roots_legendre : list (R * R);
    n : Z }.

Section Init.
(** [scipy.special.roots_legendre] is not part of this repository.  For an
    order [n < 1] it raises [ValueError]; for [n >= 1] it returns the [n]
    nodes and weights, the table [scipy_roots_legendre n] taken here as a
    parameter. *)
Variable scipy_roots_legendre : Z -> list (R * R).

Definition scipy_special_roots_legendre (n : Z) : result (list (R * R)) :=
  if (n <? 1)%Z
  then Raise (ValueError "n must be a positive integer.")
  else Ok (scipy_roots_legendre n).

Definition init (normal center : rvec) (radius current : R) (n : Z)
  : result t :=
  let normal := fvdivs (vfin normal) (np_norm (vfin normal)) in
  if Rgt_dec radius 0 then
    let z := V3 (Fin 0) (Fin 0) (Fin 1) in
    let axis_x := np_cross z normal in
    let axis_y := np_cross normal axis_x in
    let axes :=
      if feqb (np_norm axis_x) (Fin 0)
      then (V3 (Fin 1) (Fin 0) (Fin 0), V3 (Fin 0) (Fin 1) (Fin 0))
      else (fvdivs axis_x (np_norm axis_x), fvdivs axis_y (np_norm axis_y)) in
    match scipy_special_roots_legendre n with
    | Ok table =>
        Ok {| normal := normal;
              center := center;
              radius := radius;
              current := current;
              axis_x := fst axes;
              axis_y := snd axes;
              roots_legendre := table;
              n := n |}
    | Raise e => Raise e
    end
  else Raise (ValueError "Radius should bu larger than 0").

End Init.

(** [curve(t)] for a Python number [t] (the [else] branch). *)
Definition curve (self : t) (t : R) : fvec :=
  fvadd
    (fvscale (Fin (radius self))
       (fvadd (fvscale (fcos (Fin t)) (axis_x self))
              (fvscale (fsin (Fin t)) (axis_y self))))
    (vfin (center self)).

(** [curve(t)] for an array [t]: the (3, n) result, as the list of its
    columns; column [k] of [matmul(axis_x_mat, cos(t))] is
    [axis_x * cos(t_k)]. *)
Definition curve_array (self : t) (t : list R) : list fvec :=
  map (fun tk =>
         fvadd
           (fvscale (Fin (radius self))
              (fvadd (fvmuls (axis_x self) (fcos (Fin tk)))
                     (fvmuls (axis_y self) (fsin (Fin tk)))))
           (vfin (center self)))
      t.

Section Field.
Variable mu0 : R.

Definition magnetic_field (self : t) (p : rvec) : fvec :=
  let x := map fst (roots_legendre self) in
  let w := map snd (roots_legendre self) in
  let t := map (fun xk => xk * PI) x in
  let pt := curve_array self t in
  let dl :=
    map (fun tk =>
           fvscale (Fin (radius self))
             (fvadd (fvneg (fvmuls (axis_x self) (fsin (Fin tk))))
                    (fvmuls (axis_y self) (fcos (Fin tk)))))
        t in
  let r := map (fun ptk => fvsub (vfin p) ptk) pt in
  let r_norm_3 := map (fun rk => fpow (np_norm rk) 3) r in
  let ft :=
    map (fun c => fvdivs (fst c) (snd c))
        (combine (map (fun c => np_cross (fst c) (snd c)) (combine dl r))
                 r_norm_3) in
  fvmuls
    (fvdivs
       (fvdivs
          (fvmuls (fvscale (Fin PI) (np_matmul_row (map Fin w) ft))
                  (Fin mu0))
          (Fin 4))
       (Fin PI))
    (Fin (current self)).

End Field.

(** [GeneralWire] only ever applies its curve to Python numbers. *)
Definition to_GeneralWire (self : t) : result GeneralWire.t :=
  GeneralWire.init (PyCallable (curve self)) (- PI) PI (current self).

End CircularWire.

(** * The formulas of the specification

    Each definition below follows the words of the specification, over
    real vectors; the theorems compare them with what the classes above
    compute. *)

Module Spec.
Import RVec.

(** [a + s (b - a)] for some [s]: the point is on the line through [a]
    with direction [d]. *)
Definition on_line (a d p : rvec) : Prop :=
  exists s : R, p = add a (scale s d).

(** Dipole: [(mu0/4pi) (3 r (m.r)/|r|^5 - m/|r|^3)] with [r = p - position]. *)
Definition dipole_field (mu0 : R) (m position p : rvec) : rvec :=
  let r := sub p position in
  scale (mu0 / (4 * PI))
    (sub (divs (scale (dot m r) (scale 3 r)) (norm r ^ 5))
         (divs m (norm r ^ 3))).

(** Infinite wire: magnitude [mu0 I / (2 pi r)], direction [r_vec / r]. *)
Definition infinite_wire_field (mu0 : R) (direction anchor_point : rvec)
  (I : R) (p : rvec) : rvec :=
  let r_vec := cross direction (sub p anchor_point) in
  let r := norm r_vec in
  scale (mu0 * I / (2 * PI * r)) (divs r_vec r).

(** The foot of the perpendicular from [p] to the line through [a], [b]. *)
Definition foot (a b p : rvec) : rvec :=
  let d := sub b a in
  add a (scale (dot (sub p a) d / dot d d) d).

(** The cosine of the angle between [v] and [axis]. *)
Definition direction_cosine (v axis : rvec) : R :=
  dot v axis / (norm v * norm axis).

(** Finite wire: magnitude [(mu0 I/4pi)(cos theta1 - cos theta2)/|p - pf|],
    direction [(b - a) x (p - pf)], normalized. *)
Definition finite_wire_field (mu0 : R) (a b : rvec) (I : R) (p : rvec)
  : rvec :=
  let pf := foot a b p in
  let cos_theta_1 := direction_cosine (sub p a) (sub b a) in
  let cos_theta_2 := direction_cosine (sub p b) (sub b a) in
  scale (mu0 * I / (4 * PI) * (cos_theta_1 - cos_theta_2) / norm (sub p pf))
    (normalize (cross (sub b a) (sub p pf))).

(** The loop [l(theta) = center + radius (cos theta axis_x + sin theta axis_y)]
    and its tangent [dl/dtheta]. *)
Definition circle (center : rvec) (radius : R) (axis_x axis_y : rvec)
  (theta : R) : rvec :=
  add center (scale radius (add (scale (cos theta) axis_x)
                                (scale (sin theta) axis_y))).

Definition circle_tangent (radius : R) (axis_x axis_y : rvec) (theta : R)
  : rvec :=
  scale radius (add (scale (- sin theta) axis_x) (scale (cos theta) axis_y)).

(** [f = (dl/dtheta x r) / |r|^3] with [r = p - l(theta)]. *)
Definition circle_integrand (center : rvec) (radius : R)
  (axis_x axis_y p : rvec) (theta : R) : rvec :=
  let r := sub p (circle center radius axis_x axis_y theta) in
  divs (cross (circle_tangent radius axis_x axis_y theta) r) (norm r ^ 3).

(** Circular wire: [pi (sum_k w_k f(pi x_k)) mu0 I / (4 pi)] over the
    quadrature nodes [x_k] with weights [w_k]. *)
Definition circular_wire_field (mu0 : R) (center : rvec) (radius I : R)
  (axis_x axis_y : rvec) (nodes : list (R * R)) (p : rvec) : rvec :=
  scale (mu0 * I / (4 * PI))
    (scale PI
       (sum (map (fun xw =>
                    scale (snd xw)
                      (circle_integrand center radius axis_x axis_y p
                         (fst xw * PI)))
                 nodes))).

(** General wire: [t_i = t_min + i (t_max - t_min)/n], [p_i = curve(t_i)]. *)
Definition sample (curve : R -> rvec) (t_min t_max : R) (n i : nat) : rvec :=
  curve (t_min + INR i * ((t_max - t_min) / INR n)).

(** Step [i], counted from 1: the chord [dl_i = p_i - p_(i-1)] against the
    displacement [R_i] from the chord's midpoint [m_i]. *)
Definition chord_term (curve : R -> rvec) (t_min t_max : R) (n : nat)
  (point : rvec) (i : nat) : rvec :=
  let p_prev := sample curve t_min t_max n (i - 1) in
  let p_i := sample curve t_min t_max n i in
  let dl := sub p_i p_prev in
  let m := divs (add p_prev p_i) 2 in
  let R := sub point m in
  divs (cross dl R) (norm R ^ 3).

Definition general_wire_field (mu0 : R) (curve : R -> rvec)
  (t_min t_max I : R) (n : nat) (point : rvec) : rvec :=
  scale (mu0 * I / (4 * PI))
    (sum (map (chord_term curve t_min t_max n point) (seq 1 n))).

End Spec.

(** The term that one pass of the loop of [GeneralWire.magnetic_field]
    adds to [B]: [p1 = p2] is executed before [R] is computed, so that
    [(p2 + p1) / 2] is [p2], the end point of the chord. *)
Definition chord_end_term (curve : R -> rvec) (t_min t_max : R) (n : nat)
  (point : rvec) (i : nat) : rvec :=
  let p_prev := Spec.sample curve t_min t_max n (i - 1) in
  let p_i := Spec.sample curve t_min t_max n i in
  let dl := RVec.sub p_i p_prev in
  let R := RVec.sub point p_i in
  RVec.divs (RVec.cross dl R) (RVec.norm R ^ 3).

(** * Concrete sources for the examples

    The vacuum permeability [4 pi 1e-7], the two-point Gauss-Legendre rule
    (nodes [-1/sqrt 3], [1/sqrt 3], weights [1]) standing for scipy's
    table, the world axes, and the unit loop in the x-y plane. *)

Definition mu0_SI : R := 4 * PI / 10000000.

Definition two_point_rule (n : Z) : list (R * R) :=
  [(- / sqrt 3, 1); (/ sqrt 3, 1)].

Definition e_x : rvec := V3 1 0 0.
Definition e_y : rvec := V3 0 1 0.
Definition e_z : rvec := V3 0 0 1.

Definition unit_loop : CircularWire.t :=
  {| CircularWire.normal := vfin e_z;
     CircularWire.center := RVec.zero;
     CircularWire.radius := 1;
     CircularWire.current := 1;
     CircularWire.axis_x := vfin e_x;
     CircularWire.axis_y := vfin e_y;
     CircularWire.roots_legendre := two_point_rule 2;
     CircularWire.n := 2 |}.

Definition z_wire : InfiniteStraightWire.t :=
  {| InfiniteStraightWire.direction := vfin e_z;
     InfiniteStraightWire.p0 := RVec.zero;
     InfiniteStraightWire.current := 1 |}.

Definition x_segment : FiniteStraightWire.t :=
  {| FiniteStraightWire.p1 := RVec.zero;
     FiniteStraightWire.p2 := e_x;
     FiniteStraightWire.current := 1 |}.

Definition z_dipole : MagneticDipole.t :=
  {| MagneticDipole.moment := e_z; MagneticDipole.p0 := RVec.zero |}.

Definition x_curve (t : R) : rvec := V3 t 0 0.

Definition x_general_wire : GeneralWire.t :=
  {| GeneralWire.parametric_eq := fun t => vfin (x_curve t);
     GeneralWire.t1 := 0;
     GeneralWire.t2 := 1;
     GeneralWire.current := 1 |}.

(** * Properties *)

(** ** Real vector algebra *)

Lemma rvec_eq (u v : rvec) :
  vx u = vx v -> vy u = vy v -> vz u = vz v -> u = v.
Proof. destruct u, v; simpl; intros -> -> ->; reflexivity. Qed.

Ltac rvec_ring :=
  apply rvec_eq; unfold RVec.dot; simpl; try ring.

Lemma sum_squares_nonneg (v : rvec) :
  0 <= vx v * vx v + vy v * vy v + vz v * vz v.
Proof. nra. Qed.

Lemma norm_nonneg (v : rvec) : 0 <= RVec.norm v.
Proof. apply sqrt_pos. Qed.

Lemma norm_sqr (v : rvec) : RVec.norm v * RVec.norm v = RVec.dot v v.
Proof. unfold RVec.norm. rewrite sqrt_sqrt by apply sum_squares_nonneg. reflexivity. Qed.

Lemma norm_eq_0 (v : rvec) : RVec.norm v = 0 -> v = RVec.zero.
Proof.
  intros H. unfold RVec.norm in H.
  apply sqrt_eq_0 in H; [| apply sum_squares_nonneg].
  apply rvec_eq; simpl; nra.
Qed.

Lemma norm_neq_0 (v : rvec) : v <> RVec.zero -> RVec.norm v <> 0.
Proof. intros Hv H. apply Hv, norm_eq_0, H. Qed.

Lemma norm_pos (v : rvec) : v <> RVec.zero -> 0 < RVec.norm v.
Proof.
  intros Hv. pose proof (norm_nonneg v). pose proof (norm_neq_0 v Hv). lra.
Qed.

Lemma sub_eq_zero (u v : rvec) : RVec.sub u v = RVec.zero -> u = v.
Proof.
  intros H. apply rvec_eq.
  - apply (f_equal vx) in H. simpl in H. lra.
  - apply (f_equal vy) in H. simpl in H. lra.
  - apply (f_equal vz) in H. simpl in H. lra.
Qed.

Lemma sub_neq_zero (u v : rvec) : u <> v -> RVec.sub u v <> RVec.zero.
Proof. intros Hne H. apply Hne, sub_eq_zero, H. Qed.

Lemma norm_divs (v : rvec) (k : R) :
  0 < k -> RVec.norm (RVec.divs v k) = RVec.norm v / k.
Proof.
  intros Hk. unfold RVec.norm, RVec.divs. simpl.
  replace (vx v / k * (vx v / k) + vy v / k * (vy v / k) + vz v / k * (vz v / k))
    with ((vx v * vx v + vy v * vy v + vz v * vz v) / (k * k))
    by (field; lra).
  rewrite sqrt_div_alt by nra.
  rewrite sqrt_square by lra. reflexivity.
Qed.

Lemma norm_normalize (v : rvec) :
  v <> RVec.zero -> RVec.norm (RVec.normalize v) = 1.
Proof.
  intros Hv. unfold RVec.normalize.
  pose proof (norm_pos v Hv).
  rewrite norm_divs by assumption. field. lra.
Qed.

Lemma dot_divs (u v : rvec) (k l : R) :
  k <> 0 -> l <> 0 ->
  RVec.dot (RVec.divs u k) (RVec.divs v l) = RVec.dot u v / (k * l).
Proof. intros Hk Hl. unfold RVec.dot, RVec.divs. simpl. field. split; assumption. Qed.

Lemma dot_cross_l (u v : rvec) : RVec.dot u (RVec.cross u v) = 0.
Proof. unfold RVec.dot, RVec.cross. simpl. ring. Qed.

Lemma dot_cross_r (u v : rvec) : RVec.dot v (RVec.cross u v) = 0.
Proof. unfold RVec.dot, RVec.cross. simpl. ring. Qed.

Lemma dot_comm (u v : rvec) : RVec.dot u v = RVec.dot v u.
Proof. unfold RVec.dot. ring. Qed.

(** Lagrange's identity. *)
Lemma dot_cross_cross (u v : rvec) :
  RVec.dot (RVec.cross u v) (RVec.cross u v)
  = RVec.dot u u * RVec.dot v v - RVec.dot u v * RVec.dot u v.
Proof. unfold RVec.dot, RVec.cross. simpl. ring. Qed.

Lemma dot_self_pos (v : rvec) : v <> RVec.zero -> 0 < RVec.dot v v.
Proof.
  intros Hv. pose proof (norm_pos v Hv). rewrite <- norm_sqr. nra.
Qed.

Lemma dot_self_eq_0 (v : rvec) : RVec.dot v v = 0 -> v = RVec.zero.
Proof.
  intros H. apply norm_eq_0. pose proof (norm_sqr v). pose proof (norm_nonneg v). nra.
Qed.

(** ** Floating-point operations on finite operands *)

Lemma fdiv_fin (x y : R) : y <> 0 -> fdiv (Fin x) (Fin y) = Fin (x / y).
Proof. intros Hy. unfold fdiv. destruct (Req_dec_T y 0); [contradiction | reflexivity]. Qed.

Lemma fdiv_zero (a : npfloat) : fdiv a (Fin 0) = NonFinite.
Proof.
  destruct a; [| reflexivity]. unfold fdiv.
  destruct (Req_dec_T 0 0); [reflexivity | contradiction].
Qed.

Lemma fsqrt_fin (x : R) : 0 <= x -> fsqrt (Fin x) = Fin (sqrt x).
Proof. intros Hx. unfold fsqrt. destruct (Rlt_dec x 0); [lra | reflexivity]. Qed.

Lemma fadd_fin (x y : R) : fadd (Fin x) (Fin y) = Fin (x + y).
Proof. reflexivity. Qed.

Lemma fsub_fin (x y : R) : fsub (Fin x) (Fin y) = Fin (x - y).
Proof. reflexivity. Qed.

Lemma fmul_fin (x y : R) : fmul (Fin x) (Fin y) = Fin (x * y).
Proof. reflexivity. Qed.

Lemma fcos_fin (x : R) : fcos (Fin x) = Fin (cos x).
Proof. reflexivity. Qed.

Lemma fsin_fin (x : R) : fsin (Fin x) = Fin (sin x).
Proof. reflexivity. Qed.

Lemma fpow_fin (x : R) (k : nat) : fpow (Fin x) k = Fin (x ^ k).
Proof. reflexivity. Qed.

Lemma fvadd_fin (u v : rvec) : fvadd (vfin u) (vfin v) = vfin (RVec.add u v).
Proof. reflexivity. Qed.

Lemma fvsub_fin (u v : rvec) : fvsub (vfin u) (vfin v) = vfin (RVec.sub u v).
Proof. reflexivity. Qed.

Lemma fvneg_fin (v : rvec) : fvneg (vfin v) = vfin (RVec.opp v).
Proof. reflexivity. Qed.

Lemma fvscale_fin (k : R) (v : rvec) :
  fvscale (Fin k) (vfin v) = vfin (RVec.scale k v).
Proof. reflexivity. Qed.

Lemma fvmuls_fin (k : R) (v : rvec) :
  fvmuls (vfin v) (Fin k) = vfin (RVec.scale k v).
Proof.
  unfold fvmuls, vfin, RVec.scale, vmap. simpl.
  rewrite !(Rmult_comm k). reflexivity.
Qed.

Lemma fvdivs_fin (k : R) (v : rvec) :
  k <> 0 -> fvdivs (vfin v) (Fin k) = vfin (RVec.divs v k).
Proof.
  intros Hk. unfold fvdivs, vfin, RVec.divs, vmap. cbn [vx vy vz].
  rewrite !fdiv_fin by assumption. reflexivity.
Qed.

Lemma fvdivs_zero (v : fvec) : fvdivs v (Fin 0) = nonfinite_vec.
Proof. unfold fvdivs, vmap. rewrite !fdiv_zero. reflexivity. Qed.

Lemma np_dot_fin (u v : rvec) : np_dot (vfin u) (vfin v) = Fin (RVec.dot u v).
Proof. reflexivity. Qed.

Lemma np_cross_fin (u v : rvec) :
  np_cross (vfin u) (vfin v) = vfin (RVec.cross u v).
Proof. reflexivity. Qed.

Lemma np_norm_fin (v : rvec) : np_norm (vfin v) = Fin (RVec.norm v).
Proof.
  unfold np_norm, RVec.norm, vfin, vmap. cbn [vx vy vz fmul fadd lift2].
  apply fsqrt_fin, sum_squares_nonneg.
Qed.

Lemma vfin_inj (u v : rvec) : vfin u = vfin v -> u = v.
Proof.
  destruct u, v. unfold vfin, vmap. simpl. intros H.
  injection H as -> -> ->. reflexivity.
Qed.

Create Rewrite HintDb fin.
#[local] Hint Rewrite fvadd_fin fvsub_fin fvneg_fin fvscale_fin fvmuls_fin
  np_dot_fin np_cross_fin np_norm_fin fpow_fin fadd_fin fsub_fin fmul_fin
  fcos_fin fsin_fin : fin.

Lemma PI_neq_0 : PI <> 0.
Proof. pose proof PI_RGT_0. lra. Qed.

(** A point off the line through [a] along [d] has a non-zero moment about it. *)
Lemma off_line_cross (a d p : rvec) :
  d <> RVec.zero -> ~ Spec.on_line a d p ->
  RVec.cross d (RVec.sub p a) <> RVec.zero.
Proof.
  intros Hd Hoff Hc. apply Hoff.
  pose proof (dot_self_pos d Hd) as Hdd.
  exists (RVec.dot d (RVec.sub p a) / RVec.dot d d).
  pose proof (f_equal vx Hc) as H1.
  pose proof (f_equal vy Hc) as H2.
  pose proof (f_equal vz Hc) as H3.
  set (dd := RVec.dot d d) in *.
  set (dv := RVec.dot d (RVec.sub p a)).
  simpl in H1, H2, H3.
  assert (Hx : vx d * dv = (vx p - vx a) * dd).
  { unfold dv, dd, RVec.dot. simpl.
    replace ((vx p - vx a) * (vx d * vx d + vy d * vy d + vz d * vz d))
      with (vx d * (vx d * (vx p - vx a) + vy d * (vy p - vy a)
                    + vz d * (vz p - vz a))
            + vz d * (vz d * (vx p - vx a) - vx d * (vz p - vz a))
            - vy d * (vx d * (vy p - vy a) - vy d * (vx p - vx a))) by ring.
    rewrite H2, H3. ring. }
  assert (Hy : vy d * dv = (vy p - vy a) * dd).
  { unfold dv, dd, RVec.dot. simpl.
    replace ((vy p - vy a) * (vx d * vx d + vy d * vy d + vz d * vz d))
      with (vy d * (vx d * (vx p - vx a) + vy d * (vy p - vy a)
                    + vz d * (vz p - vz a))
            + vx d * (vx d * (vy p - vy a) - vy d * (vx p - vx a))
            - vz d * (vy d * (vz p - vz a) - vz d * (vy p - vy a))) by ring.
    rewrite H1, H3. ring. }
  assert (Hz : vz d * dv = (vz p - vz a) * dd).
  { unfold dv, dd, RVec.dot. simpl.
    replace ((vz p - vz a) * (vx d * vx d + vy d * vy d + vz d * vz d))
      with (vz d * (vx d * (vx p - vx a) + vy d * (vy p - vy a)
                    + vz d * (vz p - vz a))
            + vy d * (vy d * (vz p - vz a) - vz d * (vy p - vy a))
            - vx d * (vz d * (vx p - vx a) - vx d * (vz p - vz a))) by ring.
    rewrite H1, H2. ring. }
  apply rvec_eq; simpl.
  - replace (dv / dd * vx d) with (vx d * dv / dd) by (field; lra).
    rewrite Hx. field. lra.
  - replace (dv / dd * vy d) with (vy d * dv / dd) by (field; lra).
    rewrite Hy. field. lra.
  - replace (dv / dd * vz d) with (vz d * dv / dd) by (field; lra).
    rewrite Hz. field. lra.
Qed.

Lemma on_line_cross (a d p : rvec) :
  Spec.on_line a d p -> RVec.cross d (RVec.sub p a) = RVec.zero.
Proof. intros [s ->]. rvec_ring. Qed.

Section Properties.
Variable mu0 : R.
Variable scipy_roots_legendre : Z -> list (R * R).

(** ** MagneticDipole *)

Lemma dipole_eval (self : MagneticDipole.t) (p : rvec) :
  p <> MagneticDipole.p0 self ->
  MagneticDipole.magnetic_field mu0 self p
  = vfin (Spec.dipole_field mu0 (MagneticDipole.moment self)
            (MagneticDipole.p0 self) p).
Proof.
  intros Hp.
  assert (Hr : RVec.norm (RVec.sub p (MagneticDipole.p0 self)) <> 0)
    by (apply norm_neq_0, sub_neq_zero, Hp).
  unfold MagneticDipole.magnetic_field, Spec.dipole_field. cbn zeta.
  autorewrite with fin.
  rewrite !fvdivs_fin by (apply pow_nonzero, Hr).
  autorewrite with fin.
  f_equal. rvec_ring; field; repeat split; auto using PI_neq_0.
Qed.

(** C2.  For every dipole and every point [p] other than the dipole's
    position, [magnetic_field(p)] is
    [(mu0/(4 pi)) (3 r (m . r)/|r|^5 - m/|r|^3)] with [r = p - position]
    and [m = moment]; in particular it is a finite vector. *)
Theorem MagneticDipole_magnetic_field_formula
  (self : MagneticDipole.t) (p : rvec) :
  p <> MagneticDipole.p0 self ->
  let r := RVec.sub p (MagneticDipole.p0 self) in
  let m := MagneticDipole.moment self in
  MagneticDipole.magnetic_field mu0 self p
  = vfin (RVec.scale (mu0 / (4 * PI))
            (RVec.sub
               (RVec.divs (RVec.scale (RVec.dot m r) (RVec.scale 3 r))
                          (RVec.norm r ^ 5))
               (RVec.divs m (RVec.norm r ^ 3)))).
Proof. intros Hp r m. rewrite dipole_eval by exact Hp. reflexivity. Qed.

(** ** InfiniteStraightWire *)

Lemma infinite_wire_eval (self : InfiniteStraightWire.t) (d p : rvec) :
  InfiniteStraightWire.direction self = vfin d ->
  RVec.cross d (RVec.sub p (InfiniteStraightWire.p0 self)) <> RVec.zero ->
  InfiniteStraightWire.magnetic_field mu0 self p
  = vfin (Spec.infinite_wire_field mu0 d (InfiniteStraightWire.p0 self)
            (InfiniteStraightWire.current self) p).
Proof.
  intros Hd Hc. apply norm_neq_0 in Hc.
  unfold InfiniteStraightWire.magnetic_field, Spec.infinite_wire_field.
  cbn zeta. rewrite Hd.
  autorewrite with fin.
  rewrite !fvdivs_fin by assumption. autorewrite with fin.
  rewrite !fvdivs_fin by (try lra; apply PI_neq_0). autorewrite with fin.
  f_equal. rvec_ring; field; repeat split; auto using PI_neq_0.
Qed.

(** C5.  For every infinite straight wire (its stored direction a finite,
    non-zero vector) and every point [p] off the wire's axis,
    [magnetic_field(p)] is the vector of magnitude [mu0 I/(2 pi r)] along
    [r_vec / r], where [r_vec = direction x (p - anchor_point)] and
    [r = |r_vec|]; [r_vec / r] is a unit vector. *)
Theorem InfiniteStraightWire_magnetic_field_formula
  (self : InfiniteStraightWire.t) (d p : rvec) :
  InfiniteStraightWire.direction self = vfin d ->
  d <> RVec.zero ->
  ~ Spec.on_line (InfiniteStraightWire.p0 self) d p ->
  let r_vec := RVec.cross d (RVec.sub p (InfiniteStraightWire.p0 self)) in
  let r := RVec.norm r_vec in
  InfiniteStraightWire.magnetic_field mu0 self p
  = vfin (RVec.scale (mu0 * InfiniteStraightWire.current self / (2 * PI * r))
            (RVec.divs r_vec r))
  /\ RVec.norm (RVec.divs r_vec r) = 1.
Proof.
  intros Hd Hd0 Hoff r_vec r.
  pose proof (off_line_cross _ _ _ Hd0 Hoff) as Hc.
  split.
  - rewrite (infinite_wire_eval self d p Hd Hc). reflexivity.
  - apply norm_normalize, Hc.
Qed.

(** ** Reversal of the source *)

(** C9.  For a dipole and a point [p] other than its position, replacing
    [moment] by [-moment] negates the field; for an infinite straight wire
    (finite, non-zero direction) and a point [p] off its axis, replacing
    [current] by [-current] negates the field. *)
Theorem magnetic_field_antisymmetric :
  (forall (moment p0 p : rvec),
      p <> p0 ->
      MagneticDipole.magnetic_field mu0
        {| MagneticDipole.moment := RVec.opp moment;
           MagneticDipole.p0 := p0 |} p
      = fvneg (MagneticDipole.magnetic_field mu0
                 {| MagneticDipole.moment := moment;
                    MagneticDipole.p0 := p0 |} p))
  /\ (forall (d p0 p : rvec) (current : R),
        d <> RVec.zero ->
        ~ Spec.on_line p0 d p ->
        InfiniteStraightWire.magnetic_field mu0
          {| InfiniteStraightWire.direction := vfin d;
             InfiniteStraightWire.p0 := p0;
             InfiniteStraightWire.current := - current |} p
        = fvneg (InfiniteStraightWire.magnetic_field mu0
                   {| InfiniteStraightWire.direction := vfin d;
                      InfiniteStraightWire.p0 := p0;
                      InfiniteStraightWire.current := current |} p)).
Proof.
  split.
  - intros moment p0 p Hp.
    rewrite !dipole_eval by exact Hp. cbn [MagneticDipole.moment MagneticDipole.p0].
    assert (Hr : RVec.norm (RVec.sub p p0) <> 0)
      by (apply norm_neq_0, sub_neq_zero, Hp).
    rewrite fvneg_fin. f_equal. unfold Spec.dipole_field.
    rvec_ring; field; repeat split; auto using PI_neq_0.
  - intros d p0 p current Hd Hoff.
    pose proof (off_line_cross _ _ _ Hd Hoff) as Hc.
    rewrite !(infinite_wire_eval _ d p) by (try reflexivity; exact Hc).
    cbn [InfiniteStraightWire.current InfiniteStraightWire.p0].
    apply norm_neq_0 in Hc.
    rewrite fvneg_fin. f_equal. unfold Spec.infinite_wire_field.
    rvec_ring; field; repeat split; auto using PI_neq_0.
Qed.


Lemma foot_on_line (a b p : rvec) :
  Spec.on_line a (RVec.sub b a) (Spec.foot a b p).
Proof. unfold Spec.foot. cbn zeta. eexists. reflexivity. Qed.

Lemma foot_perpendicular (a b p : rvec) :
  a <> b ->
  RVec.dot (RVec.sub p (Spec.foot a b p)) (RVec.sub b a) = 0.
Proof.
  intros Hab.
  assert (Hd : RVec.sub b a <> RVec.zero)
    by (apply sub_neq_zero; congruence).
  apply dot_self_pos in Hd.
  unfold Spec.foot. cbn zeta.
  set (k := RVec.dot (RVec.sub p a) (RVec.sub b a)
            / RVec.dot (RVec.sub b a) (RVec.sub b a)).
  assert (Hk : k * RVec.dot (RVec.sub b a) (RVec.sub b a)
               = RVec.dot (RVec.sub p a) (RVec.sub b a))
    by (unfold k; field; lra).
  unfold RVec.dot in *. simpl in *. nra.
Qed.

Lemma cross_foot (a b p : rvec) :
  RVec.cross (RVec.sub b a) (RVec.sub p (Spec.foot a b p))
  = RVec.cross (RVec.sub b a) (RVec.sub p a).
Proof. unfold Spec.foot. rvec_ring. Qed.

Lemma cross_zero_r (u : rvec) : RVec.cross u RVec.zero = RVec.zero.
Proof. rvec_ring. Qed.

Lemma finite_wire_eval (self : FiniteStraightWire.t) (p : rvec) :
  let a := FiniteStraightWire.p1 self in
  let b := FiniteStraightWire.p2 self in
  a <> b ->
  ~ Spec.on_line a (RVec.sub b a) p ->
  FiniteStraightWire.magnetic_field mu0 self p
  = vfin (Spec.finite_wire_field mu0 a b (FiniteStraightWire.current self) p).
Proof.
  intros a b Hab Hoff.
  assert (Hd : RVec.sub b a <> RVec.zero)
    by (apply sub_neq_zero; congruence).
  pose proof (off_line_cross _ _ _ Hd Hoff) as Hc.
  rewrite <- cross_foot in Hc.
  assert (Hpf : RVec.sub p (Spec.foot a b p) <> RVec.zero).
  { intros H. apply Hc. rewrite H. apply cross_zero_r. }
  assert (Hpa : RVec.sub p a <> RVec.zero).
  { apply sub_neq_zero. intros ->. apply Hoff. exists 0. rvec_ring. }
  assert (Hpb : RVec.sub p b <> RVec.zero).
  { apply sub_neq_zero. intros ->. apply Hoff. exists 1. rvec_ring. }
  pose proof (dot_self_pos _ Hd) as Hdd.
  apply norm_neq_0 in Hc, Hpf, Hpa, Hpb, Hd.
  unfold FiniteStraightWire.magnetic_field, Spec.finite_wire_field.
  cbn zeta. fold a b.
  autorewrite with fin. rewrite fdiv_fin by lra.
  autorewrite with fin. fold (Spec.foot a b p).
  rewrite !fdiv_fin by assumption.
  rewrite (fvdivs_fin _ _ Hc). rewrite (fvdivs_fin _ _ Hpf).
  autorewrite with fin.
  rewrite !fvdivs_fin by (try lra; apply PI_neq_0).
  autorewrite with fin.
  f_equal. unfold Spec.direction_cosine, RVec.normalize.
  set (n1 := RVec.norm (RVec.sub p a)) in *.
  set (n2 := RVec.norm (RVec.sub p b)) in *.
  set (nd := RVec.norm (RVec.sub b a)) in *.
  set (nf := RVec.norm (RVec.sub p (Spec.foot a b p))) in *.
  set (nc := RVec.norm (RVec.cross (RVec.sub b a)
                          (RVec.sub p (Spec.foot a b p)))) in *.
  set (c := RVec.cross (RVec.sub b a) (RVec.sub p (Spec.foot a b p))).
  set (d1 := RVec.dot (RVec.sub p a) (RVec.sub b a)).
  set (d2 := RVec.dot (RVec.sub p b) (RVec.sub b a)).
  apply rvec_eq; simpl; field; repeat split; auto using PI_neq_0; lra.
Qed.

(** C3.  For every finite straight wire (distinct end points) and every
    point [p] off the line through them, [magnetic_field(p)] is the vector
    of magnitude [(mu0 I/(4 pi)) (cos theta1 - cos theta2) / |p - pf|] along
    the normalized [(endpoint_b - endpoint_a) x (p - pf)], where [pf] is the
    orthogonal projection of [p] onto the line (on the line, with [p - pf]
    perpendicular to it) and [cos theta1], [cos theta2] are the direction
    cosines of [p - endpoint_a] and [p - endpoint_b] along the wire. *)
Theorem FiniteStraightWire_magnetic_field_formula
  (self : FiniteStraightWire.t) (p : rvec) :
  let a := FiniteStraightWire.p1 self in
  let b := FiniteStraightWire.p2 self in
  let I := FiniteStraightWire.current self in
  a <> b ->
  ~ Spec.on_line a (RVec.sub b a) p ->
  let pf := Spec.foot a b p in
  let cos_theta_1 := Spec.direction_cosine (RVec.sub p a) (RVec.sub b a) in
  let cos_theta_2 := Spec.direction_cosine (RVec.sub p b) (RVec.sub b a) in
  let dir := RVec.normalize (RVec.cross (RVec.sub b a) (RVec.sub p pf)) in
  Spec.on_line a (RVec.sub b a) pf
  /\ RVec.dot (RVec.sub p pf) (RVec.sub b a) = 0
  /\ RVec.norm dir = 1
  /\ FiniteStraightWire.magnetic_field mu0 self p
     = vfin (RVec.scale
               (mu0 * I / (4 * PI) * (cos_theta_1 - cos_theta_2)
                / RVec.norm (RVec.sub p pf))
               dir).
Proof.
  intros a b I Hab Hoff pf cos_theta_1 cos_theta_2 dir.
  split; [apply foot_on_line |].
  split; [apply foot_perpendicular, Hab |].
  split.
  - apply norm_normalize. unfold pf. rewrite cross_foot.
    apply off_line_cross; [apply sub_neq_zero; congruence | exact Hoff].
  - rewrite (finite_wire_eval self p Hab Hoff). reflexivity.
Qed.

(** ** CircularWire *)

Lemma circle_node_eval (center : rvec) (radius : R) (ax ay p : rvec) (tk : R) :
  p <> Spec.circle center radius ax ay tk ->
  let dl := fvscale (Fin radius)
              (fvadd (fvneg (fvmuls (vfin ax) (fsin (Fin tk))))
                     (fvmuls (vfin ay) (fcos (Fin tk)))) in
  let r := fvsub (vfin p)
             (fvadd (fvscale (Fin radius)
                       (fvadd (fvmuls (vfin ax) (fcos (Fin tk)))
                              (fvmuls (vfin ay) (fsin (Fin tk)))))
                    (vfin center)) in
  fvdivs (np_cross dl r) (fpow (np_norm r) 3)
  = vfin (Spec.circle_integrand center radius ax ay p tk).
Proof.
  intros Hp. cbn zeta. autorewrite with fin.
  replace (RVec.add
             (RVec.scale radius
                (RVec.add (RVec.scale (cos tk) ax) (RVec.scale (sin tk) ay)))
             center)
    with (Spec.circle center radius ax ay tk)
    by (unfold Spec.circle; rvec_ring).
  assert (Hr : RVec.norm (RVec.sub p (Spec.circle center radius ax ay tk)) <> 0)
    by (apply norm_neq_0, sub_neq_zero, Hp).
  autorewrite with fin.
  rewrite fvdivs_fin by (apply pow_nonzero, Hr).
  f_equal. unfold Spec.circle_integrand. cbn zeta.
  set (nr := RVec.norm (RVec.sub p (Spec.circle center radius ax ay tk))) in *.
  apply rvec_eq; simpl; field; exact Hr.
Qed.

Lemma matmul_row_eval (g : R -> rvec) (l : list (R * R)) :
  np_matmul_row (map Fin (map snd l)) (map (fun xw => vfin (g (fst xw))) l)
  = vfin (RVec.sum (map (fun xw => RVec.scale (snd xw) (g (fst xw))) l)).
Proof.
  induction l as [| [x wk] l IH]; simpl; [reflexivity |].
  rewrite IH. autorewrite with fin. reflexivity.
Qed.

Lemma circular_ft_eval (self : CircularWire.t) (ax ay p : rvec)
  (l : list (R * R)) :
  CircularWire.axis_x self = vfin ax ->
  CircularWire.axis_y self = vfin ay ->
  (forall theta : R,
      p <> Spec.circle (CircularWire.center self) (CircularWire.radius self)
             ax ay theta) ->
  let t := map (fun xk => xk * PI) (map fst l) in
  let pt := CircularWire.curve_array self t in
  let dl :=
    map (fun tk =>
           fvscale (Fin (CircularWire.radius self))
             (fvadd (fvneg (fvmuls (CircularWire.axis_x self) (fsin (Fin tk))))
                    (fvmuls (CircularWire.axis_y self) (fcos (Fin tk)))))
        t in
  let r := map (fun ptk => fvsub (vfin p) ptk) pt in
  let r_norm_3 := map (fun rk => fpow (np_norm rk) 3) r in
  map (fun c => fvdivs (fst c) (snd c))
      (combine (map (fun c => np_cross (fst c) (snd c)) (combine dl r))
               r_norm_3)
  = map (fun xw =>
           vfin (Spec.circle_integrand (CircularWire.center self)
                   (CircularWire.radius self) ax ay p (fst xw * PI)))
        l.
Proof.
  intros Hx Hy Hp. cbn zeta. unfold CircularWire.curve_array.
  induction l as [| [xk wk] l IH]; [reflexivity |].
  cbn [map combine fst snd]. f_equal; [| exact IH].
  rewrite Hx, Hy. apply circle_node_eval, Hp.
Qed.

Lemma circular_wire_eval (self : CircularWire.t) (ax ay p : rvec) :
  CircularWire.axis_x self = vfin ax ->
  CircularWire.axis_y self = vfin ay ->
  (forall theta : R,
      p <> Spec.circle (CircularWire.center self) (CircularWire.radius self)
             ax ay theta) ->
  CircularWire.magnetic_field mu0 self p
  = vfin (Spec.circular_wire_field mu0 (CircularWire.center self)
            (CircularWire.radius self) (CircularWire.current self)
            ax ay (CircularWire.roots_legendre self) p).
Proof.
  intros Hx Hy Hp.
  unfold CircularWire.magnetic_field. cbn zeta.
  rewrite (circular_ft_eval self ax ay p _ Hx Hy Hp).
  rewrite (matmul_row_eval
             (fun x => Spec.circle_integrand (CircularWire.center self)
                         (CircularWire.radius self) ax ay p (x * PI))).
  autorewrite with fin.
  rewrite !fvdivs_fin by (try lra; apply PI_neq_0).
  autorewrite with fin.
  f_equal. unfold Spec.circular_wire_field.
  set (total := RVec.sum _).
  apply rvec_eq; simpl; field; apply PI_neq_0.
Qed.

(** C4.  For every circular wire (finite in-plane axes) and every point [p]
    that is not on the loop, [magnetic_field(p)] is
    [pi (sum_k w_k (dl/dtheta(t_k) x (p - l(t_k))) / |p - l(t_k)|^3) mu0 I/(4 pi)]
    over the cached nodes [t_k = pi x_k], with
    [l(theta) = center + radius (cos theta axis_x + sin theta axis_y)] and
    [dl/dtheta = radius (- sin theta axis_x + cos theta axis_y)]. *)
Theorem CircularWire_magnetic_field_formula
  (self : CircularWire.t) (ax ay p : rvec) :
  let center := CircularWire.center self in
  let radius := CircularWire.radius self in
  let l := fun theta =>
             RVec.add center
               (RVec.scale radius
                  (RVec.add (RVec.scale (cos theta) ax)
                            (RVec.scale (sin theta) ay))) in
  let dl := fun theta =>
              RVec.scale radius
                (RVec.add (RVec.scale (- sin theta) ax)
                          (RVec.scale (cos theta) ay)) in
  CircularWire.axis_x self = vfin ax ->
  CircularWire.axis_y self = vfin ay ->
  (forall theta : R, p <> l theta) ->
  CircularWire.magnetic_field mu0 self p
  = vfin (RVec.scale (mu0 * CircularWire.current self / (4 * PI))
            (RVec.scale PI
               (RVec.sum
                  (map (fun xw =>
                          let t_k := fst xw * PI in
                          let w_k := snd xw in
                          RVec.scale w_k
                            (RVec.divs
                               (RVec.cross (dl t_k) (RVec.sub p (l t_k)))
                               (RVec.norm (RVec.sub p (l t_k)) ^ 3)))
                       (CircularWire.roots_legendre self))))).
Proof.
  intros center radius l dl Hx Hy Hp.
  rewrite (circular_wire_eval self ax ay p Hx Hy Hp). reflexivity.
Qed.


(** ** Construction *)

Lemma np_all_eq_true (u v : rvec) : np_all_eq u v = true <-> u = v.
Proof.
  unfold np_all_eq. split.
  - destruct (Req_dec_T (vx u) (vx v)); [| discriminate].
    destruct (Req_dec_T (vy u) (vy v)); [| discriminate].
    destruct (Req_dec_T (vz u) (vz v)); [| discriminate].
    intros _. apply rvec_eq; assumption.
  - intros ->.
    destruct (Req_dec_T (vx v) (vx v)); [| contradiction].
    destruct (Req_dec_T (vy v) (vy v)); [| contradiction].
    destruct (Req_dec_T (vz v) (vz v)); [| contradiction].
    reflexivity.
Qed.

Lemma FiniteStraightWire_init_same (a : rvec) (current : R) :
  FiniteStraightWire.init a a current
  = Raise (ValueError "p1, p2 should not be the same point.").
Proof.
  unfold FiniteStraightWire.init.
  destruct (np_all_eq a a) eqn:E; [reflexivity |].
  assert (np_all_eq a a = true) by (apply np_all_eq_true; reflexivity).
  congruence.
Qed.

Lemma FiniteStraightWire_init_distinct (a b : rvec) (current : R) :
  a <> b ->
  FiniteStraightWire.init a b current
  = Ok {| FiniteStraightWire.p1 := a;
          FiniteStraightWire.p2 := b;
          FiniteStraightWire.current := current |}.
Proof.
  intros Hab. unfold FiniteStraightWire.init.
  destruct (np_all_eq a b) eqn:E; [| reflexivity].
  apply np_all_eq_true in E. contradiction.
Qed.

Lemma GeneralWire_init_callable_lt (f : R -> fvec) (t1 t2 current : R) :
  t1 < t2 ->
  GeneralWire.init (PyCallable f) t1 t2 current
  = Ok {| GeneralWire.parametric_eq := f;
          GeneralWire.t1 := t1;
          GeneralWire.t2 := t2;
          GeneralWire.current := current |}.
Proof.
  intros Hlt. unfold GeneralWire.init.
  destruct (Rlt_dec t1 t2); [reflexivity | contradiction].
Qed.

Lemma GeneralWire_init_not_lt (f : R -> fvec) (t1 t2 current : R) :
  ~ t1 < t2 ->
  GeneralWire.init (PyCallable f) t1 t2 current
  = Raise (ValueError "t1 is not smaller than t2").
Proof.
  intros Hlt. unfold GeneralWire.init.
  destruct (Rlt_dec t1 t2); [contradiction | reflexivity].
Qed.

Lemma roots_legendre_valid_order (n : Z) :
  (1 <= n)%Z ->
  CircularWire.scipy_special_roots_legendre scipy_roots_legendre n
  = Ok (scipy_roots_legendre n).
Proof.
  intros Hn. unfold CircularWire.scipy_special_roots_legendre.
  destruct (Z.ltb_spec n 1); [lia | reflexivity].
Qed.

Lemma roots_legendre_bad_order (n : Z) :
  (n < 1)%Z ->
  CircularWire.scipy_special_roots_legendre scipy_roots_legendre n
  = Raise (ValueError "n must be a positive integer.").
Proof.
  intros Hn. unfold CircularWire.scipy_special_roots_legendre.
  destruct (Z.ltb_spec n 1); [reflexivity | lia].
Qed.

Lemma CircularWire_init_radius_pos (normal center : rvec)
  (radius current : R) (n : Z) :
  radius > 0 ->
  (1 <= n)%Z ->
  exists self,
    CircularWire.init scipy_roots_legendre normal center radius current n
    = Ok self
    /\ CircularWire.center self = center
    /\ CircularWire.radius self = radius
    /\ CircularWire.current self = current.
Proof.
  intros Hr Hn. unfold CircularWire.init. cbn zeta.
  destruct (Rgt_dec radius 0); [| contradiction].
  rewrite (roots_legendre_valid_order n Hn).
  eexists. split; [reflexivity |]. repeat split.
Qed.

Lemma CircularWire_init_bad_order (normal center : rvec)
  (radius current : R) (n : Z) :
  radius > 0 ->
  (n < 1)%Z ->
  CircularWire.init scipy_roots_legendre normal center radius current n
  = Raise (ValueError "n must be a positive integer.").
Proof.
  intros Hr Hn. unfold CircularWire.init. cbn zeta.
  destruct (Rgt_dec radius 0); [| contradiction].
  rewrite (roots_legendre_bad_order n Hn). reflexivity.
Qed.

Lemma CircularWire_init_radius_nonpos (normal center : rvec)
  (radius current : R) (n : Z) :
  ~ radius > 0 ->
  CircularWire.init scipy_roots_legendre normal center radius current n
  = Raise (ValueError "Radius should bu larger than 0").
Proof.
  intros Hr. unfold CircularWire.init. cbn zeta.
  destruct (Rgt_dec radius 0); [contradiction | reflexivity].
Qed.

(** C6, as the code has it.  [FiniteStraightWire] raises when the two end
    points are the same and is built otherwise; [GeneralWire], given a
    callable, raises when [t1 < t2] fails and is built otherwise, and given
    an object that is not callable raises whatever the bounds are;
    [CircularWire] raises when [radius > 0] fails; with a positive radius
    it raises when the quadrature order [n] is below 1 (the error of
    [roots_legendre(n)]) and is built otherwise.  A raise returns no
    object. *)
Theorem constructors_reject_degenerate_geometry :
  (forall (a b : rvec) (current : R),
      (a = b ->
       FiniteStraightWire.init a b current
       = Raise (ValueError "p1, p2 should not be the same point."))
      /\ (a <> b ->
          FiniteStraightWire.init a b current
          = Ok {| FiniteStraightWire.p1 := a;
                  FiniteStraightWire.p2 := b;
                  FiniteStraightWire.current := current |}))
  /\ (forall (f : R -> fvec) (t1 t2 current : R),
        (~ t1 < t2 ->
         GeneralWire.init (PyCallable f) t1 t2 current
         = Raise (ValueError "t1 is not smaller than t2"))
        /\ (t1 < t2 ->
            GeneralWire.init (PyCallable f) t1 t2 current
            = Ok {| GeneralWire.parametric_eq := f;
                    GeneralWire.t1 := t1;
                    GeneralWire.t2 := t2;
                    GeneralWire.current := current |}))
  /\ (forall (t1 t2 current : R),
        GeneralWire.init PyOther t1 t2 current
        = Raise (ValueError "Argument parametric_eq should be a callable"))
  /\ (forall (normal center : rvec) (radius current : R) (n : Z),
        (~ radius > 0 ->
         CircularWire.init scipy_roots_legendre normal center radius current n
         = Raise (ValueError "Radius should bu larger than 0"))
        /\ (radius > 0 -> (n < 1)%Z ->
            CircularWire.init scipy_roots_legendre normal center radius
              current n
            = Raise (ValueError "n must be a positive integer."))
        /\ (radius > 0 -> (1 <= n)%Z ->
            exists self,
              CircularWire.init scipy_roots_legendre normal center radius
                current n = Ok self
              /\ CircularWire.center self = center
              /\ CircularWire.radius self = radius
              /\ CircularWire.current self = current)).
Proof.
  repeat split.
  - intros ->. apply FiniteStraightWire_init_same.
  - apply FiniteStraightWire_init_distinct.
  - apply GeneralWire_init_not_lt.
  - apply GeneralWire_init_callable_lt.
  - apply CircularWire_init_radius_nonpos.
  - apply CircularWire_init_bad_order.
  - apply CircularWire_init_radius_pos.
Qed.

(** ** Conversion to a GeneralWire *)

(** C7.  [FiniteStraightWire.to_GeneralWire] returns a [GeneralWire] built
    by the constructor, with the curve [t -> endpoint_a + (endpoint_b -
    endpoint_a) t], the bounds [0] and [1] and the same current;
    [CircularWire.to_GeneralWire] returns one whose curve is the wire's own
    [curve] (the analytic circle, when the axes are finite), with the
    bounds [-pi] and [pi] and the same current. *)
Theorem to_GeneralWire_result :
  (forall self : FiniteStraightWire.t,
      exists gw,
        FiniteStraightWire.to_GeneralWire self = Ok gw
        /\ GeneralWire.t1 gw = 0
        /\ GeneralWire.t2 gw = 1
        /\ GeneralWire.current gw = FiniteStraightWire.current self
        /\ forall t : R,
            GeneralWire.parametric_eq gw t
            = vfin (RVec.add (FiniteStraightWire.p1 self)
                      (RVec.scale t
                         (RVec.sub (FiniteStraightWire.p2 self)
                                   (FiniteStraightWire.p1 self)))))
  /\ (forall self : CircularWire.t,
        exists gw,
          CircularWire.to_GeneralWire self = Ok gw
          /\ GeneralWire.t1 gw = - PI
          /\ GeneralWire.t2 gw = PI
          /\ GeneralWire.current gw = CircularWire.current self
          /\ GeneralWire.parametric_eq gw = CircularWire.curve self
          /\ forall ax ay : rvec,
              CircularWire.axis_x self = vfin ax ->
              CircularWire.axis_y self = vfin ay ->
              forall t : R,
                GeneralWire.parametric_eq gw t
                = vfin (Spec.circle (CircularWire.center self)
                          (CircularWire.radius self) ax ay t)).
Proof.
  split.
  - intros self. unfold FiniteStraightWire.to_GeneralWire. cbn zeta.
    rewrite GeneralWire_init_callable_lt by lra.
    eexists. split; [reflexivity |]. cbn.
    repeat split. intros t. autorewrite with fin. reflexivity.
  - intros self. unfold CircularWire.to_GeneralWire.
    rewrite GeneralWire_init_callable_lt by (pose proof PI_RGT_0; lra).
    eexists. split; [reflexivity |]. cbn [GeneralWire.t1 GeneralWire.t2
      GeneralWire.current GeneralWire.parametric_eq].
    repeat split. intros ax ay Hx Hy t.
    unfold CircularWire.curve. rewrite Hx, Hy. autorewrite with fin.
    f_equal. unfold Spec.circle. rvec_ring.
Qed.


(** ** The in-plane axes of a CircularWire *)

Lemma norm_zero : RVec.norm RVec.zero = 0.
Proof.
  unfold RVec.norm. simpl.
  replace (0 * 0 + 0 * 0 + 0 * 0) with 0 by ring. apply sqrt_0.
Qed.

Lemma norm_e_x : RVec.norm (V3 1 0 0) = 1.
Proof.
  unfold RVec.norm. simpl.
  replace (1 * 1 + 0 * 0 + 0 * 0) with 1 by ring. apply sqrt_1.
Qed.

Lemma norm_e_y : RVec.norm (V3 0 1 0) = 1.
Proof.
  unfold RVec.norm. simpl.
  replace (0 * 0 + 1 * 1 + 0 * 0) with 1 by ring. apply sqrt_1.
Qed.

Lemma dot_divs_l (u v : rvec) (k : R) :
  k <> 0 -> RVec.dot (RVec.divs u k) v = RVec.dot u v / k.
Proof. intros Hk. unfold RVec.dot, RVec.divs. simpl. field. exact Hk. Qed.

Lemma cross_divs_r (u v : rvec) (k : R) :
  k <> 0 -> RVec.cross u (RVec.divs v k) = RVec.divs (RVec.cross u v) k.
Proof. intros Hk. apply rvec_eq; simpl; field; exact Hk. Qed.

Lemma divs_zero_vec (k : R) : RVec.divs RVec.zero k = RVec.zero.
Proof. apply rvec_eq; simpl; unfold Rdiv; ring. Qed.

(** The axes the constructor derives from a unit normal [nh]. *)
Lemma circular_axes_eval (nh : rvec) :
  RVec.norm nh = 1 ->
  let z := V3 (Fin 0) (Fin 0) (Fin 1) in
  let axis_x := np_cross z (vfin nh) in
  let axis_y := np_cross (vfin nh) axis_x in
  let axes :=
    if feqb (np_norm axis_x) (Fin 0)
    then (V3 (Fin 1) (Fin 0) (Fin 0), V3 (Fin 0) (Fin 1) (Fin 0))
    else (fvdivs axis_x (np_norm axis_x), fvdivs axis_y (np_norm axis_y)) in
  exists ax ay : rvec,
    fst axes = vfin ax /\ snd axes = vfin ay
    /\ RVec.norm ax = 1 /\ RVec.norm ay = 1
    /\ RVec.dot ax ay = 0 /\ RVec.dot ax nh = 0 /\ RVec.dot ay nh = 0
    /\ (RVec.cross (V3 0 0 1) nh = RVec.zero ->
        ax = V3 1 0 0 /\ ay = V3 0 1 0).
Proof.
  intros Hn. cbn zeta.
  change (V3 (Fin 0) (Fin 0) (Fin 1)) with (vfin (V3 0 0 1)).
  autorewrite with fin.
  set (x0 := RVec.cross (V3 0 0 1) nh).
  set (y0 := RVec.cross nh x0).
  unfold feqb. destruct (Req_dec_T (RVec.norm x0) 0) as [Hx0 | Hx0].
  - exists (V3 1 0 0), (V3 0 1 0). cbn [fst snd].
    apply norm_eq_0 in Hx0.
    pose proof (f_equal vx Hx0) as H1. pose proof (f_equal vy Hx0) as H2.
    unfold x0 in H1, H2. simpl in H1, H2.
    repeat split; try apply norm_e_x; try apply norm_e_y;
      unfold RVec.dot; simpl; lra.
  - assert (Hxz : x0 <> RVec.zero).
    { intros H. apply Hx0. rewrite H. apply norm_zero. }
    assert (Hy0 : RVec.norm y0 <> 0).
    { intros H.
      pose proof (dot_cross_cross nh x0) as HL. fold y0 in HL.
      pose proof (norm_sqr y0) as Hyy. rewrite H in Hyy.
      pose proof (norm_sqr nh) as Hnn. rewrite Hn in Hnn.
      pose proof (norm_sqr x0) as Hxx.
      pose proof (dot_cross_r (V3 0 0 1) nh) as Hperp. fold x0 in Hperp.
      rewrite Hperp, <- Hyy, <- Hnn, <- Hxx in HL. nra. }
    assert (Hyz : y0 <> RVec.zero).
    { intros H. apply Hy0. rewrite H. apply norm_zero. }
    rewrite !fvdivs_fin by assumption.
    exists (RVec.divs x0 (RVec.norm x0)), (RVec.divs y0 (RVec.norm y0)).
    cbn [fst snd]. repeat split.
    + apply (norm_normalize x0 Hxz).
    + apply (norm_normalize y0 Hyz).
    + rewrite dot_divs by assumption. unfold y0. rewrite dot_cross_r.
      unfold Rdiv. ring.
    + rewrite dot_divs_l by assumption. unfold x0.
      rewrite dot_comm, dot_cross_r. unfold Rdiv. ring.
    + rewrite dot_divs_l by assumption. unfold y0.
      rewrite dot_comm, dot_cross_l. unfold Rdiv. ring.
    + exfalso. apply Hxz. assumption.
    + exfalso. apply Hxz. assumption.
Qed.

(** C8.  A [CircularWire] built from a non-zero normal stores the
    normalized normal and two axes that are unit vectors, orthogonal to
    each other and to the normal; when the cross product of the world
    z-axis with the normal is zero the axes are [(1,0,0)] and [(0,1,0)]. *)
Theorem CircularWire_axes_orthonormal
  (normal center : rvec) (radius current : R) (n : Z) (self : CircularWire.t) :
  normal <> RVec.zero ->
  CircularWire.init scipy_roots_legendre normal center radius current n
  = Ok self ->
  exists ax ay : rvec,
    CircularWire.normal self = vfin (RVec.normalize normal)
    /\ CircularWire.axis_x self = vfin ax
    /\ CircularWire.axis_y self = vfin ay
    /\ RVec.norm ax = 1 /\ RVec.norm ay = 1
    /\ RVec.dot ax ay = 0
    /\ RVec.dot ax (RVec.normalize normal) = 0
    /\ RVec.dot ay (RVec.normalize normal) = 0
    /\ (RVec.cross (V3 0 0 1) normal = RVec.zero ->
        ax = V3 1 0 0 /\ ay = V3 0 1 0).
Proof.
  intros Hn Hinit.
  pose proof (norm_neq_0 normal Hn) as Hnn.
  unfold CircularWire.init in Hinit. cbn zeta in Hinit.
  destruct (Rgt_dec radius 0); [| discriminate].
  destruct (CircularWire.scipy_special_roots_legendre scipy_roots_legendre n)
    as [table | e]; [| discriminate].
  rewrite np_norm_fin, (fvdivs_fin _ _ Hnn) in Hinit.
  fold (RVec.normalize normal) in Hinit.
  destruct (circular_axes_eval (RVec.normalize normal)
              (norm_normalize normal Hn))
    as (ax & ay & Hax & Hay & H1 & H2 & H3 & H4 & H5 & H6).
  injection Hinit as <-. cbn [CircularWire.normal CircularWire.axis_x
                               CircularWire.axis_y].
  exists ax, ay. repeat split; try assumption.
  - apply H6. unfold RVec.normalize. rewrite cross_divs_r by assumption.
    rewrite H. apply divs_zero_vec.
  - apply H6. unfold RVec.normalize. rewrite cross_divs_r by assumption.
    rewrite H. apply divs_zero_vec.
Qed.

(** ** A zero direction or normal *)

Lemma normalize_zero_nonfinite :
  fvdivs (vfin RVec.zero) (np_norm (vfin RVec.zero)) = nonfinite_vec.
Proof. rewrite np_norm_fin, norm_zero. apply fvdivs_zero. Qed.

(** C10.  Both constructors divide the vector they are given by its
    Euclidean norm and check nothing: a non-zero direction or normal is
    stored divided by its norm; with a zero direction,
    [InfiniteStraightWire] is built all the same and stores a direction
    with no finite component; with a zero normal (a positive radius and a
    valid quadrature order), [CircularWire] is built and stores a normal,
    and two axes, with no finite component.  The degenerate inputs of the
    other checks raise. *)
Theorem zero_direction_is_accepted :
  (forall (d p0 : rvec) (current : R),
      d <> RVec.zero ->
      InfiniteStraightWire.init d p0 current
      = Ok {| InfiniteStraightWire.direction :=
                vfin (RVec.divs d (RVec.norm d));
              InfiniteStraightWire.p0 := p0;
              InfiniteStraightWire.current := current |})
  /\ (forall (p0 : rvec) (current : R),
        InfiniteStraightWire.init RVec.zero p0 current
        = Ok {| InfiniteStraightWire.direction := nonfinite_vec;
                InfiniteStraightWire.p0 := p0;
                InfiniteStraightWire.current := current |})
  /\ (forall (normal center : rvec) (radius current : R) (n : Z),
        normal <> RVec.zero ->
        radius > 0 ->
        (1 <= n)%Z ->
        exists self,
          CircularWire.init scipy_roots_legendre normal center radius
            current n = Ok self
          /\ CircularWire.normal self
             = vfin (RVec.divs normal (RVec.norm normal)))
  /\ (forall (center : rvec) (radius current : R) (n : Z),
        radius > 0 ->
        (1 <= n)%Z ->
        CircularWire.init scipy_roots_legendre RVec.zero center radius
          current n
        = Ok {| CircularWire.normal := nonfinite_vec;
                CircularWire.center := center;
                CircularWire.radius := radius;
                CircularWire.current := current;
                CircularWire.axis_x := nonfinite_vec;
                CircularWire.axis_y := nonfinite_vec;
                CircularWire.roots_legendre := scipy_roots_legendre n;
                CircularWire.n := n |})
  /\ (forall (a : rvec) (current : R),
        exists e, FiniteStraightWire.init a a current = Raise e)
  /\ (forall (f : R -> fvec) (t current : R),
        exists e, GeneralWire.init (PyCallable f) t t current = Raise e)
  /\ (forall (normal center : rvec) (current : R) (n : Z),
        exists e,
          CircularWire.init scipy_roots_legendre normal center 0 current n
          = Raise e).
Proof.
  repeat split.
  - intros d p0 current Hd. unfold InfiniteStraightWire.init.
    rewrite np_norm_fin, fvdivs_fin by (apply norm_neq_0, Hd). reflexivity.
  - intros p0 current. unfold InfiniteStraightWire.init.
    rewrite normalize_zero_nonfinite. reflexivity.
  - intros normal center radius current n Hn Hr Hord.
    unfold CircularWire.init. cbn zeta.
    destruct (Rgt_dec radius 0); [| contradiction].
    rewrite (roots_legendre_valid_order n Hord).
    rewrite np_norm_fin, fvdivs_fin by (apply norm_neq_0, Hn).
    eexists. split; reflexivity.
  - intros center radius current n Hr Hord. unfold CircularWire.init.
    cbn zeta. destruct (Rgt_dec radius 0); [| contradiction].
    rewrite (roots_legendre_valid_order n Hord).
    rewrite normalize_zero_nonfinite. reflexivity.
  - intros a current. eexists. apply FiniteStraightWire_init_same.
  - intros f t current. eexists. apply GeneralWire_init_not_lt. lra.
  - intros normal center current n. eexists.
    apply CircularWire_init_radius_nonpos. lra.
Qed.


(** ** GeneralWire: what the loop sums *)

Lemma midpoint_after_assignment (q : rvec) :
  RVec.divs (RVec.add q q) 2 = q.
Proof. apply rvec_eq; simpl; field. Qed.

Lemma add_assoc_sum (B v s : rvec) :
  RVec.add (RVec.add B v) s = RVec.add B (RVec.add v s).
Proof. rvec_ring. Qed.

Lemma add_zero_r (v : rvec) : RVec.add v RVec.zero = v.
Proof. rvec_ring. Qed.

Lemma add_zero_l (v : rvec) : RVec.add RVec.zero v = v.
Proof. rvec_ring. Qed.

Section Loop.
Variables (f : R -> fvec) (c : R -> rvec) (p : rvec) (t_min t_max : R)
  (n : nat).
Hypothesis f_finite : forall t, f t = vfin (c t).

Let step : R := (t_max - t_min) / INR n.

Lemma loop_eval (k : nat) :
  forall (j : nat) (B0 : rvec) (t : R),
    t = t_min + INR j * step ->
    (forall i : nat,
        (j < i <= j + k)%nat -> p <> Spec.sample c t_min t_max n i) ->
    GeneralWire.loop f (vfin p) step k t (vfin (c t)) (Array (vfin B0))
    = Array (vfin (RVec.add B0
                     (RVec.sum (map (chord_end_term c t_min t_max n p)
                                    (seq (S j) k))))).
Proof.
  induction k as [| k IH]; intros j B0 t Ht Hp.
  - cbn [GeneralWire.loop seq map RVec.sum]. rewrite add_zero_r. reflexivity.
  - cbn [GeneralWire.loop]. rewrite !f_finite.
    assert (Ht' : t + step = t_min + INR (S j) * step)
      by (rewrite Ht, S_INR; ring).
    autorewrite with fin.
    rewrite fvdivs_fin by lra. autorewrite with fin.
    rewrite midpoint_after_assignment.
    assert (Hne : p <> c (t + step)).
    { rewrite Ht'. apply (Hp (S j)). lia. }
    assert (Hr : RVec.norm (RVec.sub p (c (t + step))) <> 0)
      by (apply norm_neq_0, sub_neq_zero, Hne).
    rewrite fvdivs_fin by (apply pow_nonzero, Hr).
    cbn [nd_iadd]. rewrite fvadd_fin.
    rewrite (IH (S j) _ (t + step) Ht') by (intros i Hi; apply Hp; lia).
    cbn [seq map RVec.sum]. rewrite add_assoc_sum.
    do 4 f_equal.
    unfold chord_end_term, Spec.sample. cbn zeta. fold step.
    replace (S j - 1)%nat with j by lia.
    rewrite <- Ht', <- Ht. reflexivity.
Qed.

End Loop.

Lemma loop_scalar_start (f : R -> fvec) (p : fvec) (step : R) (k : nat)
  (t : R) (p1 : fvec) :
  GeneralWire.loop f p step (S k) t p1 (Scalar (Fin 0))
  = GeneralWire.loop f p step (S k) t p1 (Array (vfin RVec.zero)).
Proof. reflexivity. Qed.

(** For [n >= 1], a curve with finite values and a point [p] that is none
    of the sample points [p_1 .. p_n], [GeneralWire.magnetic_field] returns
    [mu0 I/(4 pi)] times the sum of [(dl_i x (p - p_i)) / |p - p_i|^3]. *)
Lemma general_wire_eval (self : GeneralWire.t) (c : R -> rvec) (p : rvec)
  (n : Z) :
  (1 <= n)%Z ->
  (forall t, GeneralWire.parametric_eq self t = vfin (c t)) ->
  (forall i : nat,
      (1 <= i <= Z.to_nat n)%nat ->
      p <> Spec.sample c (GeneralWire.t1 self) (GeneralWire.t2 self)
             (Z.to_nat n) i) ->
  GeneralWire.magnetic_field mu0 self p n
  = Ok (Array
          (vfin (RVec.scale (mu0 * GeneralWire.current self / (4 * PI))
                   (RVec.sum
                      (map (chord_end_term c (GeneralWire.t1 self)
                              (GeneralWire.t2 self) (Z.to_nat n) p)
                           (seq 1 (Z.to_nat n))))))).
Proof.
  intros Hn Hc Hp. unfold GeneralWire.magnetic_field. cbn zeta.
  destruct (Z.eqb_spec n 0) as [-> | _]; [lia |].
  replace (IZR n) with (INR (Z.to_nat n))
    by (rewrite INR_IZR_INZ, Z2Nat.id by lia; reflexivity).
  destruct (Z.to_nat n) as [| m] eqn:Em; [lia |].
  rewrite loop_scalar_start, Hc.
  rewrite (loop_eval _ c p _ _ _ Hc (S m) 0 RVec.zero)
    by (try (simpl; ring); intros i Hi; apply Hp; lia).
  rewrite add_zero_l. cbn [nd_muls nd_divs].
  autorewrite with fin.
  rewrite !fvdivs_fin by (try lra; apply PI_neq_0).
  autorewrite with fin.
  apply f_equal, f_equal, f_equal. set (total := RVec.sum _).
  clearbody total.
  apply rvec_eq; simpl; field; apply PI_neq_0.
Qed.

Lemma norm_5_12 : RVec.norm (V3 5 12 0) = 13.
Proof.
  unfold RVec.norm. simpl.
  replace (5 * 5 + 12 * 12 + 0 * 0) with (13 * 13) by ring.
  apply sqrt_square. lra.
Qed.

Lemma norm_9_12 : RVec.norm (V3 9 12 0) = 15.
Proof.
  unfold RVec.norm. simpl.
  replace (9 * 9 + 12 * 12 + 0 * 0) with (15 * 15) by ring.
  apply sqrt_square. lra.
Qed.

Lemma sample_one_step (c : R -> rvec) (t_min t_max : R) :
  Spec.sample c t_min t_max 1 0 = c t_min
  /\ Spec.sample c t_min t_max 1 1 = c t_max.
Proof.
  unfold Spec.sample. simpl. split; f_equal; field.
Qed.

(** C1, at one chord.  For the wire along [t -> (8 t, 0, 0)], [0 <= t <= 1],
    with current [1], one segment and the point [(13, 12, 0)], the method
    returns [mu0/(4 pi)] times [(0, 0, 96/13^3)], the chord against the
    displacement from its end point [(8,0,0)]; the stated sum, with the
    displacement from the midpoint [(4,0,0)], is [mu0/(4 pi)] times
    [(0, 0, 96/15^3)]. *)
Theorem GeneralWire_magnetic_field_misses_midpoint :
  let c := fun t : R => V3 (8 * t) 0 0 in
  let self := {| GeneralWire.parametric_eq := fun t => vfin (c t);
                 GeneralWire.t1 := 0;
                 GeneralWire.t2 := 1;
                 GeneralWire.current := 1 |} in
  let p := V3 13 12 0 in
  GeneralWire.magnetic_field mu0 self p 1
  = Ok (Array (vfin (RVec.scale (mu0 * 1 / (4 * PI)) (V3 0 0 (96 / 2197)))))
  /\ Spec.general_wire_field mu0 c 0 1 1 1 p
     = RVec.scale (mu0 * 1 / (4 * PI)) (V3 0 0 (96 / 3375))
  /\ (mu0 <> 0 ->
      GeneralWire.magnetic_field mu0 self p 1
      <> Ok (Array (vfin (Spec.general_wire_field mu0 c 0 1 1 1 p)))).
Proof.
  intros c self p.
  destruct (sample_one_step c 0 1) as [Hs0 Hs1].
  assert (Hcode : GeneralWire.magnetic_field mu0 self p 1
    = Ok (Array (vfin (RVec.scale (mu0 * 1 / (4 * PI)) (V3 0 0 (96 / 2197)))))).
  { rewrite (general_wire_eval self c p 1).
    - cbn [GeneralWire.t1 GeneralWire.t2 GeneralWire.current self].
      change (Z.to_nat 1) with 1%nat. cbn [seq map RVec.sum].
      unfold chord_end_term. cbn zeta. change (1 - 1)%nat with 0%nat.
      rewrite Hs0, Hs1.
      replace (RVec.sub p (c 1)) with (V3 5 12 0)
        by (apply rvec_eq; simpl; ring).
      rewrite norm_5_12.
      apply f_equal, f_equal, f_equal, f_equal.
      apply rvec_eq; simpl; field.
    - lia.
    - reflexivity.
    - intros i Hi. change (Z.to_nat 1) with 1%nat in *.
      assert (i = 1%nat) as -> by lia.
      cbn [GeneralWire.t1 GeneralWire.t2 self]. rewrite Hs1.
      intros H. apply (f_equal vy) in H. simpl in H. lra. }
  assert (Hspec : Spec.general_wire_field mu0 c 0 1 1 1 p
     = RVec.scale (mu0 * 1 / (4 * PI)) (V3 0 0 (96 / 3375))).
  { unfold Spec.general_wire_field. cbn [seq map RVec.sum].
    unfold Spec.chord_term. cbn zeta. change (1 - 1)%nat with 0%nat.
    rewrite Hs0, Hs1.
    replace (RVec.sub p (RVec.divs (RVec.add (c 0) (c 1)) 2))
      with (V3 9 12 0) by (apply rvec_eq; simpl; field).
    rewrite norm_9_12.
    f_equal. apply rvec_eq; simpl; field. }
  split; [exact Hcode |]. split; [exact Hspec |].
  intros Hmu. rewrite Hcode, Hspec. intros H.
  injection H as Hz.
  pose proof PI_RGT_0 as Hpi.
  assert (Hk : mu0 * 1 / (4 * PI) <> 0).
  { unfold Rdiv. apply Rmult_integral_contrapositive. split; [lra |].
    apply Rinv_neq_0_compat. lra. }
  apply Rmult_eq_reg_l in Hz; [lra | exact Hk].
Qed.

End Properties.

(** * Examples

    The theorems above at concrete sources. *)

Lemma e_y_not_origin : e_y <> RVec.zero.
Proof. intros H. apply (f_equal vy) in H. simpl in H. lra. Defined.

Lemma e_z_not_zero : e_z <> RVec.zero.
Proof. intros H. apply (f_equal vz) in H. simpl in H. lra. Defined.

Lemma e_x_off_z_axis : ~ Spec.on_line RVec.zero e_z e_x.
Proof.
  intros [s H]. apply (f_equal vx) in H. simpl in H. lra.
Defined.

Lemma e_y_off_x_axis : ~ Spec.on_line RVec.zero (RVec.sub e_x RVec.zero) e_y.
Proof.
  intros [s H]. apply (f_equal vy) in H. simpl in H. lra.
Defined.

(** A dipole along z at the origin, seen from [(0,1,0)]. *)
Lemma MagneticDipole_magnetic_field_formula_witness :
  e_y <> RVec.zero
  /\ MagneticDipole.magnetic_field mu0_SI
       {| MagneticDipole.moment := e_z; MagneticDipole.p0 := RVec.zero |} e_y
     = vfin (Spec.dipole_field mu0_SI e_z RVec.zero e_y).
Proof.
  split; [exact e_y_not_origin |].
  exact (MagneticDipole_magnetic_field_formula mu0_SI
           {| MagneticDipole.moment := e_z; MagneticDipole.p0 := RVec.zero |}
           e_y e_y_not_origin).
Defined.

(** A wire along z through the origin, seen from [(1,0,0)]. *)
Lemma InfiniteStraightWire_magnetic_field_formula_witness :
  let self := {| InfiniteStraightWire.direction := vfin e_z;
                 InfiniteStraightWire.p0 := RVec.zero;
                 InfiniteStraightWire.current := 1 |} in
  InfiniteStraightWire.magnetic_field mu0_SI self e_x
  = vfin (Spec.infinite_wire_field mu0_SI e_z RVec.zero 1 e_x).
Proof.
  exact (proj1 (InfiniteStraightWire_magnetic_field_formula mu0_SI
                  {| InfiniteStraightWire.direction := vfin e_z;
                     InfiniteStraightWire.p0 := RVec.zero;
                     InfiniteStraightWire.current := 1 |}
                  e_z e_x eq_refl e_z_not_zero e_x_off_z_axis)).
Defined.

(** The segment from the origin to [(1,0,0)], seen from [(0,1,0)]. *)
Lemma FiniteStraightWire_magnetic_field_formula_witness :
  let self := {| FiniteStraightWire.p1 := RVec.zero;
                 FiniteStraightWire.p2 := e_x;
                 FiniteStraightWire.current := 1 |} in
  FiniteStraightWire.magnetic_field mu0_SI self e_y
  = vfin (Spec.finite_wire_field mu0_SI RVec.zero e_x 1 e_y).
Proof.
  assert (Hab : RVec.zero <> e_x).
  { intros H. apply (f_equal vx) in H. simpl in H. lra. }
  exact (proj2 (proj2 (proj2
           (FiniteStraightWire_magnetic_field_formula mu0_SI
              {| FiniteStraightWire.p1 := RVec.zero;
                 FiniteStraightWire.p2 := e_x;
                 FiniteStraightWire.current := 1 |}
              e_y Hab e_y_off_x_axis)))).
Defined.

Lemma e_z_off_unit_loop (theta : R) :
  e_z <> RVec.add RVec.zero
           (RVec.scale 1
              (RVec.add (RVec.scale (cos theta) e_x)
                        (RVec.scale (sin theta) e_y))).
Proof. intros H. apply (f_equal vz) in H. simpl in H. lra. Defined.

(** The unit loop in the x-y plane, seen from [(0,0,1)] on its axis. *)
Lemma CircularWire_magnetic_field_formula_witness :
  CircularWire.magnetic_field mu0_SI unit_loop e_z
  = vfin (Spec.circular_wire_field mu0_SI RVec.zero 1 1 e_x e_y
            (two_point_rule 2) e_z).
Proof.
  exact (CircularWire_magnetic_field_formula mu0_SI unit_loop e_x e_y e_z
           eq_refl eq_refl e_z_off_unit_loop).
Defined.

(** A loop of radius 1 with the tilted normal [(0,3,4)]. *)
Lemma CircularWire_axes_orthonormal_witness :
  exists (self : CircularWire.t) (ax ay : rvec),
    CircularWire.init two_point_rule (V3 0 3 4) RVec.zero 1 1 2 = Ok self
    /\ CircularWire.axis_x self = vfin ax
    /\ CircularWire.axis_y self = vfin ay
    /\ RVec.norm ax = 1 /\ RVec.norm ay = 1 /\ RVec.dot ax ay = 0.
Proof.
  assert (Hn : V3 0 3 4 <> RVec.zero).
  { intros H. apply (f_equal vz) in H. simpl in H. lra. }
  assert (Hr : 1 > 0) by lra.
  assert (Hord : (1 <= 2)%Z) by lia.
  destruct (CircularWire_init_radius_pos two_point_rule (V3 0 3 4) RVec.zero
              1 1 2 Hr Hord) as (self & Hself & _).
  destruct (CircularWire_axes_orthonormal two_point_rule (V3 0 3 4) RVec.zero
              1 1 2 self Hn Hself)
    as (ax & ay & _ & Hx & Hy & H1 & H2 & H3 & _).
  exists self, ax, ay. repeat split; assumption.
Defined.

(** Reversing the dipole along z, and the current of the wire along z. *)
Lemma magnetic_field_antisymmetric_witness :
  MagneticDipole.magnetic_field mu0_SI
    {| MagneticDipole.moment := RVec.opp e_z; MagneticDipole.p0 := RVec.zero |}
    e_y
  = fvneg (MagneticDipole.magnetic_field mu0_SI
             {| MagneticDipole.moment := e_z; MagneticDipole.p0 := RVec.zero |}
             e_y)
  /\ InfiniteStraightWire.magnetic_field mu0_SI
       {| InfiniteStraightWire.direction := vfin e_z;
          InfiniteStraightWire.p0 := RVec.zero;
          InfiniteStraightWire.current := - (1) |} e_x
     = fvneg (InfiniteStraightWire.magnetic_field mu0_SI
                {| InfiniteStraightWire.direction := vfin e_z;
                   InfiniteStraightWire.p0 := RVec.zero;
                   InfiniteStraightWire.current := 1 |} e_x).
Proof.
  destruct (magnetic_field_antisymmetric mu0_SI) as [Hdipole Hwire].
  split.
  - apply Hdipole. exact e_y_not_origin.
  - apply Hwire; [exact e_z_not_zero | exact e_x_off_z_axis].
Defined.

(** A wire along [(0,0,2)] stores [(0,0,2)] divided by its norm; a loop of
    radius 1 with the normal [(0,0,0)] is built. *)
Lemma zero_direction_is_accepted_witness :
  InfiniteStraightWire.init (V3 0 0 2) RVec.zero 1
  = Ok {| InfiniteStraightWire.direction :=
            vfin (RVec.divs (V3 0 0 2) (RVec.norm (V3 0 0 2)));
          InfiniteStraightWire.p0 := RVec.zero;
          InfiniteStraightWire.current := 1 |}
  /\ (exists self : CircularWire.t,
        CircularWire.init two_point_rule (V3 0 0 2) RVec.zero 1 1 2 = Ok self
        /\ CircularWire.normal self
           = vfin (RVec.divs (V3 0 0 2) (RVec.norm (V3 0 0 2))))
  /\ (exists self : CircularWire.t,
        CircularWire.init two_point_rule RVec.zero RVec.zero 1 1 2 = Ok self
        /\ CircularWire.normal self = nonfinite_vec).
Proof.
  destruct (zero_direction_is_accepted two_point_rule)
    as (Hwire & _ & Hnormal & Hloop & _).
  assert (Hd : V3 0 0 2 <> RVec.zero).
  { intros H. apply (f_equal vz) in H. simpl in H. lra. }
  assert (Hr : 1 > 0) by lra.
  assert (Hord : (1 <= 2)%Z) by lia.
  split; [exact (Hwire (V3 0 0 2) RVec.zero 1 Hd) |].
  split; [exact (Hnormal (V3 0 0 2) RVec.zero 1 1 2%Z Hd Hr Hord) |].
  eexists. split; [exact (Hloop RVec.zero 1 1 2%Z Hr Hord) | reflexivity].
Defined.

(** The constructors at a segment, at the bounds [0 < 1] and [1 > 0], at
    the radii [-1] and [1] and at the orders [0] and [2]. *)
Lemma constructors_reject_degenerate_geometry_witness :
  FiniteStraightWire.init RVec.zero e_x 1
  = Ok {| FiniteStraightWire.p1 := RVec.zero;
          FiniteStraightWire.p2 := e_x;
          FiniteStraightWire.current := 1 |}
  /\ GeneralWire.init (PyCallable (fun t => vfin (V3 t 0 0))) 0 1 1
     = Ok {| GeneralWire.parametric_eq := fun t => vfin (V3 t 0 0);
             GeneralWire.t1 := 0;
             GeneralWire.t2 := 1;
             GeneralWire.current := 1 |}
  /\ GeneralWire.init (PyCallable (fun t => vfin (V3 t 0 0))) 1 0 1
     = Raise (ValueError "t1 is not smaller than t2")
  /\ CircularWire.init two_point_rule e_z RVec.zero (- (1)) 1 2
     = Raise (ValueError "Radius should bu larger than 0")
  /\ CircularWire.init two_point_rule e_z RVec.zero 1 1 0
     = Raise (ValueError "n must be a positive integer.")
  /\ (exists self : CircularWire.t,
        CircularWire.init two_point_rule e_z RVec.zero 1 1 2 = Ok self
        /\ CircularWire.radius self = 1).
Proof.
  destruct (constructors_reject_degenerate_geometry two_point_rule)
    as (Hfinite & Hgeneral & _ & Hcircular).
  assert (Hr : 1 > 0) by lra.
  assert (Hbad : (0 < 1)%Z) by lia.
  assert (Hord : (1 <= 2)%Z) by lia.
  split.
  { apply (Hfinite RVec.zero e_x 1).
    intros H. apply (f_equal vx) in H. simpl in H. lra. }
  split.
  { apply (Hgeneral (fun t => vfin (V3 t 0 0)) 0 1 1). lra. }
  split.
  { apply (Hgeneral (fun t => vfin (V3 t 0 0)) 1 0 1). lra. }
  split.
  { apply (Hcircular e_z RVec.zero (- (1)) 1 2%Z). lra. }
  split.
  { exact (proj1 (proj2 (Hcircular e_z RVec.zero 1 1 0%Z)) Hr Hbad). }
  destruct (proj2 (proj2 (Hcircular e_z RVec.zero 1 1 2%Z)) Hr Hord)
    as (self & Hself & _ & Hrad & _).
  exists self. split; assumption.
Defined.

(** The second departure from C6 as stated: the radius [1] is positive, and
    the constructor of [CircularWire] raises all the same at the order
    [n = 0], through [roots_legendre(n)]. *)
Lemma CircularWire_init_rejects_order_zero :
  1 > 0
  /\ CircularWire.init two_point_rule e_z RVec.zero 1 1 0
     = Raise (ValueError "n must be a positive integer.").
Proof.
  split; [lra |].
  apply CircularWire_init_bad_order; [lra | lia].
Qed.

(** C6, as stated, fails: the bounds [0 < 1] are not degenerate, and the
    constructor of [GeneralWire] raises all the same when its first
    argument is not callable. *)
Lemma GeneralWire_init_rejects_non_callable :
  0 < 1
  /\ GeneralWire.init PyOther 0 1 1
     = Raise (ValueError "Argument parametric_eq should be a callable").
Proof. split; [lra | reflexivity]. Qed.

Lemma mu0_SI_not_zero : mu0_SI <> 0.
Proof.
  unfold mu0_SI. pose proof PI_RGT_0 as Hpi. intros H.
  apply (Rmult_eq_compat_r 10000000) in H. field_simplify in H. lra.
Defined.

(** The one-chord wire, with the vacuum permeability. *)
Lemma GeneralWire_magnetic_field_misses_midpoint_witness :
  let c := fun t : R => V3 (8 * t) 0 0 in
  let self := {| GeneralWire.parametric_eq := fun t => vfin (c t);
                 GeneralWire.t1 := 0;
                 GeneralWire.t2 := 1;
                 GeneralWire.current := 1 |} in
  mu0_SI <> 0
  /\ GeneralWire.magnetic_field mu0_SI self (V3 13 12 0) 1
     = Ok (Array (vfin (RVec.scale (mu0_SI * 1 / (4 * PI))
                          (V3 0 0 (96 / 2197))))).
Proof.
  split; [exact mu0_SI_not_zero |].
  exact (proj1 (GeneralWire_magnetic_field_misses_midpoint mu0_SI)).
Defined.

(** * Further properties of the sources *)

(** ** Non-finite values are absorbing *)

Lemma fvdivs_nonfinite (k : npfloat) : fvdivs nonfinite_vec k = nonfinite_vec.
Proof. reflexivity. Qed.

Lemma fvmuls_nonfinite (k : npfloat) : fvmuls nonfinite_vec k = nonfinite_vec.
Proof. reflexivity. Qed.

Lemma fvadd_nonfinite_l (v : fvec) : fvadd nonfinite_vec v = nonfinite_vec.
Proof. reflexivity. Qed.

Lemma fadd_nonfinite_r (a : npfloat) : fadd a NonFinite = NonFinite.
Proof. destruct a; reflexivity. Qed.

Lemma fsub_nonfinite_r (a : npfloat) : fsub a NonFinite = NonFinite.
Proof. destruct a; reflexivity. Qed.

Lemma fmul_nonfinite_r (a : npfloat) : fmul a NonFinite = NonFinite.
Proof. destruct a; reflexivity. Qed.

Lemma fdiv_nonfinite_r (a : npfloat) : fdiv a NonFinite = NonFinite.
Proof. destruct a; reflexivity. Qed.

Lemma fvadd_nonfinite_r (v : fvec) : fvadd v nonfinite_vec = nonfinite_vec.
Proof.
  unfold fvadd, vmap2, nonfinite_vec. cbn [vx vy vz].
  rewrite !fadd_nonfinite_r. reflexivity.
Qed.

Lemma fvsub_nonfinite_r (v : fvec) : fvsub v nonfinite_vec = nonfinite_vec.
Proof.
  unfold fvsub, vmap2, nonfinite_vec. cbn [vx vy vz].
  rewrite !fsub_nonfinite_r. reflexivity.
Qed.

Lemma fvscale_nonfinite (k : npfloat) : fvscale k nonfinite_vec = nonfinite_vec.
Proof.
  unfold fvscale, vmap, nonfinite_vec. cbn [vx vy vz].
  rewrite !fmul_nonfinite_r. reflexivity.
Qed.

Lemma np_cross_nonfinite_l (v : fvec) : np_cross nonfinite_vec v = nonfinite_vec.
Proof. reflexivity. Qed.

Lemma np_norm_nonfinite : np_norm nonfinite_vec = NonFinite.
Proof. reflexivity. Qed.

Lemma sub_self (v : rvec) : RVec.sub v v = RVec.zero.
Proof. rvec_ring. Qed.

Section Singular.
Variable mu0 : R.

(** X1.  At the dipole's own position nothing is raised: the method
    returns an array none of whose entries is a finite number. *)
Theorem MagneticDipole_magnetic_field_at_position (self : MagneticDipole.t) :
  MagneticDipole.magnetic_field mu0 self (MagneticDipole.p0 self)
  = nonfinite_vec.
Proof.
  unfold MagneticDipole.magnetic_field. cbn zeta.
  autorewrite with fin. rewrite sub_self, norm_zero.
  replace (0 ^ 5) with 0 by ring. replace (0 ^ 3) with 0 by ring.
  rewrite !fvdivs_zero. reflexivity.
Qed.

(** X2.  On the axis of an infinite straight wire nothing is raised: the
    method returns an array none of whose entries is a finite number. *)
Theorem InfiniteStraightWire_magnetic_field_on_axis
  (self : InfiniteStraightWire.t) (d p : rvec) :
  InfiniteStraightWire.direction self = vfin d ->
  Spec.on_line (InfiniteStraightWire.p0 self) d p ->
  InfiniteStraightWire.magnetic_field mu0 self p = nonfinite_vec.
Proof.
  intros Hd Hon. unfold InfiniteStraightWire.magnetic_field. cbn zeta.
  rewrite Hd. autorewrite with fin.
  rewrite (on_line_cross _ _ _ Hon), norm_zero.
  rewrite fvdivs_zero. reflexivity.
Qed.

(** X3.  A wire built from the direction [(0,0,0)] returns, at every
    point, an array none of whose entries is a finite number. *)
Theorem InfiniteStraightWire_zero_direction_field
  (p0 : rvec) (current : R) (self : InfiniteStraightWire.t) (p : rvec) :
  InfiniteStraightWire.init RVec.zero p0 current = Ok self ->
  InfiniteStraightWire.magnetic_field mu0 self p = nonfinite_vec.
Proof.
  unfold InfiniteStraightWire.init. rewrite normalize_zero_nonfinite.
  intros H. injection H as <-. reflexivity.
Qed.

(** X4.  On the line through the end points of a finite straight wire
    (the segment itself and its extension) nothing is raised: the method
    returns an array none of whose entries is a finite number. *)
Theorem FiniteStraightWire_magnetic_field_on_line
  (self : FiniteStraightWire.t) (p : rvec) :
  let a := FiniteStraightWire.p1 self in
  let b := FiniteStraightWire.p2 self in
  a <> b ->
  Spec.on_line a (RVec.sub b a) p ->
  FiniteStraightWire.magnetic_field mu0 self p = nonfinite_vec.
Proof.
  intros a b Hab Hon.
  assert (Hd : RVec.sub b a <> RVec.zero)
    by (apply sub_neq_zero; congruence).
  pose proof (dot_self_pos _ Hd) as Hdd.
  unfold FiniteStraightWire.magnetic_field. cbn zeta. fold a b.
  autorewrite with fin. rewrite fdiv_fin by lra.
  autorewrite with fin. fold (Spec.foot a b p).
  rewrite cross_foot, (on_line_cross _ _ _ Hon), norm_zero.
  rewrite fvdivs_zero. reflexivity.
Qed.

End Singular.

(** ** GeneralWire: the sum, the edge cases of [n], and conversions *)

Lemma loop_nonfinite (f : R -> fvec) (p : fvec) (step : R) (k : nat) :
  forall (t : R) (p1 : fvec),
    GeneralWire.loop f p step k t p1 (Array nonfinite_vec)
    = Array nonfinite_vec.
Proof.
  induction k as [| k IH]; intros t p1; [reflexivity |].
  cbn [GeneralWire.loop nd_iadd]. rewrite fvadd_nonfinite_l. apply IH.
Qed.

Lemma nd_iadd_nonfinite (B : ndvalue) :
  nd_iadd B nonfinite_vec = Array nonfinite_vec.
Proof.
  destruct B as [x | b]; cbn [nd_iadd]; rewrite fvadd_nonfinite_r;
    reflexivity.
Qed.

Lemma loop_hits_sample (f : R -> fvec) (p : rvec) (t_min step : R) (k : nat) :
  forall (j : nat) (t : R) (p1 : fvec) (B : ndvalue),
    t = t_min + INR j * step ->
    (exists i : nat,
        (j < i <= j + k)%nat /\ f (t_min + INR i * step) = vfin p) ->
    GeneralWire.loop f (vfin p) step k t p1 B = Array nonfinite_vec.
Proof.
  induction k as [| k IH]; intros j t p1 B Ht (i & Hi & Hf); [lia |].
  assert (Ht' : t + step = t_min + INR (S j) * step)
    by (rewrite Ht, S_INR; ring).
  cbn [GeneralWire.loop].
  destruct (Nat.eq_dec i (S j)) as [-> | Hne].
  - rewrite Ht', Hf. autorewrite with fin.
    rewrite fvdivs_fin by lra. autorewrite with fin.
    rewrite midpoint_after_assignment, sub_self, norm_zero.
    replace (0 ^ 3) with 0 by ring.
    rewrite fvdivs_zero, nd_iadd_nonfinite. apply loop_nonfinite.
  - apply (IH (S j)); [exact Ht' |]. exists i. split; [lia | exact Hf].
Qed.

Section GeneralWireMore.
Variable mu0 : R.

(** X5.  For [n >= 1] segments, a curve with finite values and a point
    that is none of the sample points [p_1 .. p_n],
    [GeneralWire.magnetic_field] returns [mu0 I/(4 pi)] times the sum over
    the [n] equal steps of [(dl_i x (p - p_i)) / |p - p_i|^3], with the chord
    [dl_i = p_i - p_(i-1)] and [p_i = curve(t1 + i (t2 - t1)/n)]: the
    displacement is taken from the end of each chord. *)
Theorem GeneralWire_magnetic_field_endpoint_sum
  (self : GeneralWire.t) (c : R -> rvec) (p : rvec) (n : Z) :
  (1 <= n)%Z ->
  (forall t, GeneralWire.parametric_eq self t = vfin (c t)) ->
  (forall i : nat,
      (1 <= i <= Z.to_nat n)%nat ->
      p <> c (GeneralWire.t1 self
              + INR i * ((GeneralWire.t2 self - GeneralWire.t1 self)
                         / INR (Z.to_nat n)))) ->
  let t_i := fun i : nat =>
               GeneralWire.t1 self
               + INR i * ((GeneralWire.t2 self - GeneralWire.t1 self)
                          / INR (Z.to_nat n)) in
  GeneralWire.magnetic_field mu0 self p n
  = Ok (Array
          (vfin (RVec.scale (mu0 * GeneralWire.current self / (4 * PI))
                   (RVec.sum
                      (map (fun i =>
                              RVec.divs
                                (RVec.cross
                                   (RVec.sub (c (t_i i)) (c (t_i (i - 1)%nat)))
                                   (RVec.sub p (c (t_i i))))
                                (RVec.norm (RVec.sub p (c (t_i i))) ^ 3))
                           (seq 1 (Z.to_nat n))))))).
Proof.
  intros Hn Hc Hp t_i.
  rewrite (general_wire_eval mu0 self c p n Hn Hc Hp). reflexivity.
Qed.

(** X6.  With [n = 0] the method raises [ZeroDivisionError]; with a
    negative [n] the loop body never runs and the method returns the scalar
    [0], not a vector. *)
Theorem GeneralWire_magnetic_field_no_segments
  (self : GeneralWire.t) (p : rvec) (n : Z) :
  (n <= 0)%Z ->
  GeneralWire.magnetic_field mu0 self p n
  = if Z.eqb n 0 then Raise ZeroDivisionError else Ok (Scalar (Fin 0)).
Proof.
  intros Hn. unfold GeneralWire.magnetic_field. cbn zeta.
  destruct (Z.eqb_spec n 0) as [_ | Hne]; [reflexivity |].
  replace (Z.to_nat n) with 0%nat by lia.
  cbn [GeneralWire.loop nd_muls nd_divs]. autorewrite with fin.
  rewrite fdiv_fin by lra. rewrite fdiv_fin by apply PI_neq_0.
  autorewrite with fin. do 3 f_equal. field. apply PI_neq_0.
Qed.

(** X7.  When the point is one of the sample points [p_1 .. p_n] of the
    curve (the end of a chord), nothing is raised: the method returns an
    array none of whose entries is a finite number. *)
Theorem GeneralWire_magnetic_field_at_sample
  (self : GeneralWire.t) (p : rvec) (n : Z) (i : nat) :
  (1 <= i <= Z.to_nat n)%nat ->
  GeneralWire.parametric_eq self
    (GeneralWire.t1 self
     + INR i * ((GeneralWire.t2 self - GeneralWire.t1 self) / IZR n))
  = vfin p ->
  GeneralWire.magnetic_field mu0 self p n = Ok (Array nonfinite_vec).
Proof.
  intros Hi Hf. unfold GeneralWire.magnetic_field. cbn zeta.
  destruct (Z.eqb_spec n 0) as [-> | _]; [simpl in Hi; lia |].
  rewrite (loop_hits_sample _ p (GeneralWire.t1 self) _ (Z.to_nat n) 0).
  - reflexivity.
  - simpl. ring.
  - exists i. split; [lia | exact Hf].
Qed.

(** X8.  The [GeneralWire] made from a finite straight wire with distinct
    end points evaluates, for every [n >= 1] and every point off the line
    through the end points, to a finite vector: [mu0 I/(4 pi)] times the
    sum over the chords of the segment. *)
Theorem FiniteStraightWire_to_GeneralWire_field
  (self : FiniteStraightWire.t) (p : rvec) (n : Z) :
  let a := FiniteStraightWire.p1 self in
  let b := FiniteStraightWire.p2 self in
  let c := fun t : R => RVec.add a (RVec.scale t (RVec.sub b a)) in
  (1 <= n)%Z ->
  ~ Spec.on_line a (RVec.sub b a) p ->
  exists gw : GeneralWire.t,
    FiniteStraightWire.to_GeneralWire self = Ok gw
    /\ GeneralWire.magnetic_field mu0 gw p n
       = Ok (Array
               (vfin (RVec.scale
                        (mu0 * FiniteStraightWire.current self / (4 * PI))
                        (RVec.sum
                           (map (chord_end_term c 0 1 (Z.to_nat n) p)
                                (seq 1 (Z.to_nat n))))))).
Proof.
  intros a b c Hn Hoff. unfold FiniteStraightWire.to_GeneralWire. cbn zeta.
  rewrite GeneralWire_init_callable_lt by lra.
  eexists. split; [reflexivity |].
  rewrite (general_wire_eval mu0 _ c p n Hn).
  - reflexivity.
  - intros t. cbn [GeneralWire.parametric_eq]. autorewrite with fin.
    reflexivity.
  - intros i _ H. apply Hoff. rewrite H. unfold Spec.sample, c.
    eexists. reflexivity.
Qed.

(** X9.  The [GeneralWire] made from a circular wire with finite axes
    evaluates, for every [n >= 1] and every point off the loop, to a finite
    vector: [mu0 I/(4 pi)] times the sum over the chords of the circle. *)
Theorem CircularWire_to_GeneralWire_field
  (self : CircularWire.t) (ax ay p : rvec) (n : Z) :
  let c := Spec.circle (CircularWire.center self) (CircularWire.radius self)
             ax ay in
  (1 <= n)%Z ->
  CircularWire.axis_x self = vfin ax ->
  CircularWire.axis_y self = vfin ay ->
  (forall theta : R, p <> c theta) ->
  exists gw : GeneralWire.t,
    CircularWire.to_GeneralWire self = Ok gw
    /\ GeneralWire.magnetic_field mu0 gw p n
       = Ok (Array
               (vfin (RVec.scale (mu0 * CircularWire.current self / (4 * PI))
                        (RVec.sum
                           (map (chord_end_term c (- PI) PI (Z.to_nat n) p)
                                (seq 1 (Z.to_nat n))))))).
Proof.
  intros c Hn Hx Hy Hoff. unfold CircularWire.to_GeneralWire.
  rewrite GeneralWire_init_callable_lt by (pose proof PI_RGT_0; lra).
  eexists. split; [reflexivity |].
  rewrite (general_wire_eval mu0 _ c p n Hn).
  - reflexivity.
  - intros t. cbn [GeneralWire.parametric_eq]. unfold CircularWire.curve.
    rewrite Hx, Hy. autorewrite with fin. f_equal.
    unfold c, Spec.circle. rvec_ring.
  - intros i _. apply Hoff.
Qed.

End GeneralWireMore.

(** ** Symmetries of the closed forms *)

Lemma norm_opp (v : rvec) : RVec.norm (RVec.opp v) = RVec.norm v.
Proof. unfold RVec.norm. simpl. f_equal. ring. Qed.

Lemma norm_scale_pos (k : R) (v : rvec) :
  0 < k -> RVec.norm (RVec.scale k v) = k * RVec.norm v.
Proof.
  intros Hk. unfold RVec.norm. simpl.
  replace (k * vx v * (k * vx v) + k * vy v * (k * vy v)
           + k * vz v * (k * vz v))
    with (k * k * (vx v * vx v + vy v * vy v + vz v * vz v)) by ring.
  rewrite sqrt_mult_alt by nra. rewrite sqrt_square by lra. reflexivity.
Qed.

Lemma add_sub_cancel (a r : rvec) : RVec.sub (RVec.add a r) a = r.
Proof. rvec_ring. Qed.

Lemma sub_sub_cancel (a r : rvec) : RVec.sub (RVec.sub a r) a = RVec.opp r.
Proof. rvec_ring. Qed.

Lemma add_neq (a r : rvec) : r <> RVec.zero -> RVec.add a r <> a.
Proof.
  intros Hr H. apply Hr. rewrite <- (add_sub_cancel a r), H. apply sub_self.
Qed.

Lemma sub_neq (a r : rvec) : r <> RVec.zero -> RVec.sub a r <> a.
Proof.
  intros Hr H. apply Hr. apply rvec_eq; simpl.
  - apply (f_equal vx) in H. simpl in H. lra.
  - apply (f_equal vy) in H. simpl in H. lra.
  - apply (f_equal vz) in H. simpl in H. lra.
Qed.

Lemma scale_neq_zero (k : R) (v : rvec) :
  k <> 0 -> v <> RVec.zero -> RVec.scale k v <> RVec.zero.
Proof.
  intros Hk Hv H. apply Hv. apply rvec_eq; simpl.
  - apply (f_equal vx) in H. simpl in H. nra.
  - apply (f_equal vy) in H. simpl in H. nra.
  - apply (f_equal vz) in H. simpl in H. nra.
Qed.

Section Symmetries.
Variable mu0 : R.

(** X10.  The dipole field is even about the dipole: at [position + r]
    and at [position - r] the method returns the same vector. *)
Theorem MagneticDipole_magnetic_field_even
  (self : MagneticDipole.t) (r : rvec) :
  r <> RVec.zero ->
  MagneticDipole.magnetic_field mu0 self
    (RVec.add (MagneticDipole.p0 self) r)
  = MagneticDipole.magnetic_field mu0 self
      (RVec.sub (MagneticDipole.p0 self) r).
Proof.
  intros Hr.
  rewrite !dipole_eval by (apply add_neq || apply sub_neq; exact Hr).
  f_equal. unfold Spec.dipole_field. cbn zeta.
  rewrite add_sub_cancel, sub_sub_cancel, norm_opp.
  pose proof (norm_neq_0 r Hr) as Hn.
  set (nr := RVec.norm r) in *.
  apply rvec_eq; unfold RVec.dot; simpl; field; repeat split;
    auto using PI_neq_0.
Qed.

(** X11.  The dipole field falls off with the cube of the distance: moving
    the point from [position + r] to [position + k r], [k > 0], divides
    every component of the field by [k^3]. *)
Theorem MagneticDipole_magnetic_field_inverse_cube
  (self : MagneticDipole.t) (r : rvec) (k : R) :
  r <> RVec.zero ->
  0 < k ->
  MagneticDipole.magnetic_field mu0 self
    (RVec.add (MagneticDipole.p0 self) (RVec.scale k r))
  = fvdivs (MagneticDipole.magnetic_field mu0 self
              (RVec.add (MagneticDipole.p0 self) r))
           (Fin (k ^ 3)).
Proof.
  intros Hr Hk.
  assert (Hkr : RVec.scale k r <> RVec.zero)
    by (apply scale_neq_zero; [lra | exact Hr]).
  rewrite !dipole_eval by (apply add_neq; assumption).
  rewrite fvdivs_fin by (apply pow_nonzero; lra).
  f_equal. unfold Spec.dipole_field. cbn zeta.
  rewrite !add_sub_cancel, norm_scale_pos by exact Hk.
  pose proof (norm_neq_0 r Hr) as Hn.
  set (nr := RVec.norm r) in *.
  apply rvec_eq; unfold RVec.dot; simpl; field; repeat split;
    auto using PI_neq_0; lra.
Qed.

(** X12.  The dipole field is additive in the moment: away from the
    position, the field of the moment [m1 + m2] is the sum of the fields of
    [m1] and of [m2] at the same position. *)
Theorem MagneticDipole_magnetic_field_additive
  (m1 m2 p0 p : rvec) :
  p <> p0 ->
  MagneticDipole.magnetic_field mu0
    {| MagneticDipole.moment := RVec.add m1 m2; MagneticDipole.p0 := p0 |} p
  = fvadd
      (MagneticDipole.magnetic_field mu0
         {| MagneticDipole.moment := m1; MagneticDipole.p0 := p0 |} p)
      (MagneticDipole.magnetic_field mu0
         {| MagneticDipole.moment := m2; MagneticDipole.p0 := p0 |} p).
Proof.
  intros Hp. rewrite !dipole_eval by exact Hp.
  cbn [MagneticDipole.moment MagneticDipole.p0].
  rewrite fvadd_fin. f_equal. unfold Spec.dipole_field. cbn zeta.
  pose proof (norm_neq_0 _ (sub_neq_zero _ _ Hp)) as Hn.
  set (nr := RVec.norm (RVec.sub p p0)) in *.
  apply rvec_eq; unfold RVec.dot; simpl; field; repeat split;
    auto using PI_neq_0.
Qed.

End Symmetries.

(** ** Wires: geometry of the field, and the current *)

Lemma dot_scale_l (k : R) (u v : rvec) :
  RVec.dot (RVec.scale k u) v = k * RVec.dot u v.
Proof. unfold RVec.dot. simpl. ring. Qed.

Lemma fmul_comm (a b : npfloat) : fmul a b = fmul b a.
Proof. destruct a, b; simpl; try reflexivity. f_equal. ring. Qed.

Lemma fvscale_fvmuls (k : npfloat) (v : fvec) : fvscale k v = fvmuls v k.
Proof.
  unfold fvscale, fvmuls, vmap.
  rewrite (fmul_comm k (vx v)), (fmul_comm k (vy v)), (fmul_comm k (vz v)).
  reflexivity.
Qed.

Lemma fmul_unit_then (a : npfloat) (k : R) :
  fmul (fmul a (Fin 1)) (Fin k) = fmul a (Fin k).
Proof. destruct a; simpl; [| reflexivity]. f_equal. ring. Qed.

Lemma fvmuls_unit_then (v : fvec) (k : R) :
  fvmuls (fvmuls v (Fin 1)) (Fin k) = fvmuls v (Fin k).
Proof.
  unfold fvmuls, vmap. cbn [vx vy vz]. rewrite !fmul_unit_then. reflexivity.
Qed.

Lemma nd_muls_unit_then (B : ndvalue) (k : R) :
  nd_muls (nd_muls B (Fin 1)) (Fin k) = nd_muls B (Fin k).
Proof.
  destruct B as [x | b]; cbn [nd_muls].
  - rewrite fmul_unit_then. reflexivity.
  - rewrite fvmuls_unit_then. reflexivity.
Qed.

Section Wires.
Variable mu0 : R.

(** X13.  Off the axis, the field of an infinite straight wire is a finite
    vector perpendicular both to the wire and to the displacement of the
    point from the anchor point. *)
Theorem InfiniteStraightWire_magnetic_field_perpendicular
  (self : InfiniteStraightWire.t) (d p : rvec) :
  InfiniteStraightWire.direction self = vfin d ->
  d <> RVec.zero ->
  ~ Spec.on_line (InfiniteStraightWire.p0 self) d p ->
  exists B : rvec,
    InfiniteStraightWire.magnetic_field mu0 self p = vfin B
    /\ RVec.dot B d = 0
    /\ RVec.dot B (RVec.sub p (InfiniteStraightWire.p0 self)) = 0.
Proof.
  intros Hd Hd0 Hoff.
  pose proof (off_line_cross _ _ _ Hd0 Hoff) as Hc.
  rewrite (infinite_wire_eval mu0 self d p Hd Hc).
  eexists. split; [reflexivity |].
  apply norm_neq_0 in Hc. unfold Spec.infinite_wire_field. cbn zeta.
  split; rewrite dot_scale_l, dot_divs_l by exact Hc.
  - rewrite dot_comm, dot_cross_l. unfold Rdiv. ring.
  - rewrite dot_comm, dot_cross_r. unfold Rdiv. ring.
Qed.

(** X14.  The field of an infinite straight wire does not change when the
    point is moved parallel to the wire: at [p + s direction] the method
    returns what it returns at [p], for every [p] and [s]. *)
Theorem InfiniteStraightWire_magnetic_field_along_axis
  (self : InfiniteStraightWire.t) (d p : rvec) (s : R) :
  InfiniteStraightWire.direction self = vfin d ->
  InfiniteStraightWire.magnetic_field mu0 self (RVec.add p (RVec.scale s d))
  = InfiniteStraightWire.magnetic_field mu0 self p.
Proof.
  intros Hd. unfold InfiniteStraightWire.magnetic_field. cbn zeta.
  rewrite Hd. autorewrite with fin.
  replace (RVec.cross d
             (RVec.sub (RVec.add p (RVec.scale s d))
                       (InfiniteStraightWire.p0 self)))
    with (RVec.cross d (RVec.sub p (InfiniteStraightWire.p0 self)))
    by rvec_ring.
  reflexivity.
Qed.

(** X15.  Every wire class multiplies by the current last: the field at
    the current [I] is the field at the current [1] times [I], entry by
    entry, non-finite entries included. *)
Theorem wire_field_linear_in_current :
  (forall (a b p : rvec) (I : R),
      FiniteStraightWire.magnetic_field mu0
        {| FiniteStraightWire.p1 := a; FiniteStraightWire.p2 := b;
           FiniteStraightWire.current := I |} p
      = fvmuls
          (FiniteStraightWire.magnetic_field mu0
             {| FiniteStraightWire.p1 := a; FiniteStraightWire.p2 := b;
                FiniteStraightWire.current := 1 |} p)
          (Fin I))
  /\ (forall (d : fvec) (p0 p : rvec) (I : R),
        InfiniteStraightWire.magnetic_field mu0
          {| InfiniteStraightWire.direction := d;
             InfiniteStraightWire.p0 := p0;
             InfiniteStraightWire.current := I |} p
        = fvmuls
            (InfiniteStraightWire.magnetic_field mu0
               {| InfiniteStraightWire.direction := d;
                  InfiniteStraightWire.p0 := p0;
                  InfiniteStraightWire.current := 1 |} p)
            (Fin I))
  /\ (forall (self : CircularWire.t) (p : rvec) (I : R),
        CircularWire.magnetic_field mu0
          {| CircularWire.normal := CircularWire.normal self;
             CircularWire.center := CircularWire.center self;
             CircularWire.radius := CircularWire.radius self;
             CircularWire.current := I;
             CircularWire.axis_x := CircularWire.axis_x self;
             CircularWire.axis_y := CircularWire.axis_y self;
             CircularWire.roots_legendre := CircularWire.roots_legendre self;
             CircularWire.n := CircularWire.n self |} p
        = fvmuls
            (CircularWire.magnetic_field mu0
               {| CircularWire.normal := CircularWire.normal self;
                  CircularWire.center := CircularWire.center self;
                  CircularWire.radius := CircularWire.radius self;
                  CircularWire.current := 1;
                  CircularWire.axis_x := CircularWire.axis_x self;
                  CircularWire.axis_y := CircularWire.axis_y self;
                  CircularWire.roots_legendre :=
                    CircularWire.roots_legendre self;
                  CircularWire.n := CircularWire.n self |} p)
            (Fin I))
  /\ (forall (f : R -> fvec) (t1 t2 : R) (p : rvec) (n : Z) (I : R)
             (B : ndvalue),
        GeneralWire.magnetic_field mu0
          {| GeneralWire.parametric_eq := f; GeneralWire.t1 := t1;
             GeneralWire.t2 := t2; GeneralWire.current := 1 |} p n = Ok B ->
        GeneralWire.magnetic_field mu0
          {| GeneralWire.parametric_eq := f; GeneralWire.t1 := t1;
             GeneralWire.t2 := t2; GeneralWire.current := I |} p n
        = Ok (nd_muls B (Fin I))).
Proof.
  repeat split.
  - intros a b p I. unfold FiniteStraightWire.magnetic_field. cbn zeta.
    cbn [FiniteStraightWire.p1 FiniteStraightWire.p2
         FiniteStraightWire.current].
    rewrite fvmuls_unit_then. reflexivity.
  - intros d p0 p I. unfold InfiniteStraightWire.magnetic_field. cbn zeta.
    cbn [InfiniteStraightWire.direction InfiniteStraightWire.p0
         InfiniteStraightWire.current].
    rewrite fvmuls_unit_then. reflexivity.
  - intros self p I. unfold CircularWire.magnetic_field. cbn zeta.
    unfold CircularWire.curve_array.
    cbn [CircularWire.center CircularWire.radius CircularWire.current
         CircularWire.axis_x CircularWire.axis_y CircularWire.roots_legendre].
    rewrite fvmuls_unit_then. reflexivity.
  - intros f t1 t2 p n I B. unfold GeneralWire.magnetic_field. cbn zeta.
    cbn [GeneralWire.parametric_eq GeneralWire.t1 GeneralWire.t2
         GeneralWire.current].
    destruct (Z.eqb n 0); [discriminate |].
    intros H. injection H as <-. rewrite nd_muls_unit_then. reflexivity.
Qed.

(** X16.  Off the line through its end points, the field of a finite
    straight wire is a finite vector perpendicular to the wire and to the
    perpendicular dropped from the point onto the wire's line. *)
Theorem FiniteStraightWire_magnetic_field_perpendicular
  (self : FiniteStraightWire.t) (p : rvec) :
  let a := FiniteStraightWire.p1 self in
  let b := FiniteStraightWire.p2 self in
  a <> b ->
  ~ Spec.on_line a (RVec.sub b a) p ->
  exists B : rvec,
    FiniteStraightWire.magnetic_field mu0 self p = vfin B
    /\ RVec.dot B (RVec.sub b a) = 0
    /\ RVec.dot B (RVec.sub p (Spec.foot a b p)) = 0.
Proof.
  intros a b Hab Hoff.
  rewrite (finite_wire_eval mu0 self p Hab Hoff). fold a b.
  eexists. split; [reflexivity |].
  assert (Hd : RVec.sub b a <> RVec.zero)
    by (apply sub_neq_zero; congruence).
  pose proof (off_line_cross _ _ _ Hd Hoff) as Hc.
  rewrite <- cross_foot in Hc. apply norm_neq_0 in Hc.
  unfold Spec.finite_wire_field, RVec.normalize. cbn zeta.
  split; rewrite dot_scale_l, dot_divs_l by exact Hc.
  - rewrite dot_comm, dot_cross_l. unfold Rdiv. ring.
  - rewrite dot_comm, dot_cross_r. unfold Rdiv. ring.
Qed.

End Wires.

(** ** Normalization at construction, and the loop's curve *)

Lemma normalize_scale (k : R) (v : rvec) :
  0 < k ->
  fvdivs (vfin (RVec.scale k v)) (np_norm (vfin (RVec.scale k v)))
  = fvdivs (vfin v) (np_norm (vfin v)).
Proof.
  intros Hk. rewrite !np_norm_fin, norm_scale_pos by exact Hk.
  destruct (Req_dec_T (RVec.norm v) 0) as [Hz | Hnz].
  - rewrite Hz, Rmult_0_r, !fvdivs_zero. reflexivity.
  - rewrite !fvdivs_fin by (try assumption; nra).
    f_equal. apply rvec_eq; simpl; field; split; lra.
Qed.

Lemma scale_norm_normalize (v : rvec) :
  v <> RVec.zero -> RVec.scale (RVec.norm v) (RVec.normalize v) = v.
Proof.
  intros Hv. pose proof (norm_neq_0 v Hv) as Hn.
  apply rvec_eq; simpl; field; exact Hn.
Qed.

Section Construction.
Variable scipy_roots_legendre : Z -> list (R * R).

(** What a successful construction of a [CircularWire] from a non-zero
    normal stores. *)
Lemma circular_init_inv (normal center : rvec) (radius current : R) (n : Z)
  (self : CircularWire.t) :
  normal <> RVec.zero ->
  CircularWire.init scipy_roots_legendre normal center radius current n
  = Ok self ->
  radius > 0
  /\ CircularWire.center self = center
  /\ CircularWire.radius self = radius
  /\ CircularWire.normal self = vfin (RVec.normalize normal)
  /\ exists ax ay : rvec,
      CircularWire.axis_x self = vfin ax
      /\ CircularWire.axis_y self = vfin ay
      /\ RVec.norm ax = 1 /\ RVec.norm ay = 1
      /\ RVec.dot ax ay = 0
      /\ RVec.dot ax (RVec.normalize normal) = 0
      /\ RVec.dot ay (RVec.normalize normal) = 0.
Proof.
  intros Hn Hinit.
  pose proof (norm_neq_0 normal Hn) as Hnn.
  unfold CircularWire.init in Hinit. cbn zeta in Hinit.
  destruct (Rgt_dec radius 0) as [Hr |]; [| discriminate].
  destruct (CircularWire.scipy_special_roots_legendre scipy_roots_legendre n)
    as [table | e]; [| discriminate].
  rewrite np_norm_fin, (fvdivs_fin _ _ Hnn) in Hinit.
  fold (RVec.normalize normal) in Hinit.
  destruct (circular_axes_eval (RVec.normalize normal)
              (norm_normalize normal Hn))
    as (ax & ay & Hax & Hay & H1 & H2 & H3 & H4 & H5 & _).
  injection Hinit as <-.
  cbn [CircularWire.normal CircularWire.axis_x CircularWire.axis_y
       CircularWire.center CircularWire.radius].
  repeat split; try assumption.
  exists ax, ay. repeat split; assumption.
Qed.

(** X17.  [InfiniteStraightWire] stores the unit vector along the
    direction it is given: for a non-zero direction [d] the stored
    direction [u] has norm 1 and [d = |d| u]. *)
Theorem InfiniteStraightWire_init_unit_direction
  (d p0 : rvec) (current : R) :
  d <> RVec.zero ->
  exists (self : InfiniteStraightWire.t) (u : rvec),
    InfiniteStraightWire.init d p0 current = Ok self
    /\ InfiniteStraightWire.direction self = vfin u
    /\ RVec.norm u = 1
    /\ RVec.scale (RVec.norm d) u = d
    /\ InfiniteStraightWire.p0 self = p0
    /\ InfiniteStraightWire.current self = current.
Proof.
  intros Hd. pose proof (norm_neq_0 d Hd) as Hn.
  unfold InfiniteStraightWire.init.
  rewrite np_norm_fin, (fvdivs_fin _ _ Hn).
  eexists. exists (RVec.normalize d). split; [reflexivity |].
  cbn [InfiniteStraightWire.direction InfiniteStraightWire.p0
       InfiniteStraightWire.current].
  repeat split.
  - apply norm_normalize, Hd.
  - apply scale_norm_normalize, Hd.
Qed.

(** X18.  Only the direction of the vector given to a constructor counts,
    not its length: multiplying the direction of an [InfiniteStraightWire]
    or the normal of a [CircularWire] by [k > 0] constructs the same
    object (or raises the same error). *)
Theorem init_ignores_length (k : R) :
  0 < k ->
  (forall (d p0 : rvec) (current : R),
      InfiniteStraightWire.init (RVec.scale k d) p0 current
      = InfiniteStraightWire.init d p0 current)
  /\ (forall (normal center : rvec) (radius current : R) (n : Z),
        CircularWire.init scipy_roots_legendre (RVec.scale k normal) center
          radius current n
        = CircularWire.init scipy_roots_legendre normal center radius
            current n).
Proof.
  intros Hk. split.
  - intros d p0 current. unfold InfiniteStraightWire.init.
    rewrite normalize_scale by exact Hk. reflexivity.
  - intros normal center radius current n. unfold CircularWire.init.
    cbn zeta. rewrite normalize_scale by exact Hk. reflexivity.
Qed.

(** X19.  The curve of a [CircularWire] built from a non-zero normal stays
    on the loop: every [curve(t)] is a finite point at distance [radius]
    from the center, in the plane through the center perpendicular to the
    normal. *)
Theorem CircularWire_curve_on_circle
  (normal center : rvec) (radius current : R) (n : Z)
  (self : CircularWire.t) (t : R) :
  normal <> RVec.zero ->
  CircularWire.init scipy_roots_legendre normal center radius current n
  = Ok self ->
  exists q : rvec,
    CircularWire.curve self t = vfin q
    /\ RVec.norm (RVec.sub q center) = radius
    /\ RVec.dot (RVec.sub q center) (RVec.normalize normal) = 0.
Proof.
  intros Hn Hinit.
  destruct (circular_init_inv _ _ _ _ _ _ Hn Hinit)
    as (Hr & Hc & Hrad & _ & ax & ay & Hx & Hy & H1 & H2 & H3 & H4 & H5).
  unfold CircularWire.curve. rewrite Hx, Hy, Hc, Hrad.
  autorewrite with fin. eexists. split; [reflexivity |].
  set (u := RVec.normalize normal) in *. clearbody u.
  pose proof (norm_sqr ax) as Hxx. rewrite H1 in Hxx.
  pose proof (norm_sqr ay) as Hyy. rewrite H2 in Hyy.
  pose proof (sin2_cos2 t) as Hsc. unfold Rsqr in Hsc.
  unfold RVec.dot in *. simpl in Hxx, Hyy, H3, H4, H5.
  split.
  - unfold RVec.norm. simpl.
    match goal with
    | |- sqrt ?e = _ => replace e with (radius * radius)
    end.
    + apply sqrt_square. lra.
    + set (c := cos t) in *. set (s := sin t) in *.
      transitivity
        (radius * radius
         * (c * c * (vx ax * vx ax + vy ax * vy ax + vz ax * vz ax)
            + 2 * c * s * (vx ax * vx ay + vy ax * vy ay + vz ax * vz ay)
            + s * s * (vx ay * vx ay + vy ay * vy ay + vz ay * vz ay))).
      * rewrite <- Hxx, <- Hyy, H3.
        replace (c * c * (1 * 1) + 2 * c * s * 0 + s * s * (1 * 1))
          with (s * s + c * c) by ring.
        rewrite Hsc. ring.
      * ring.
  - simpl.
    set (c := cos t) in *. set (s := sin t) in *.
    transitivity
      (radius
       * (c * (vx ax * vx u + vy ax * vy u + vz ax * vz u)
          + s * (vx ay * vx u + vy ay * vy u + vz ay * vz u))).
    + ring.
    + rewrite H4, H5. ring.
Qed.

End Construction.

(** X20.  The two branches of [curve] agree: on an array of parameters it
    returns, column by column, what it returns on each parameter alone,
    whatever the axes hold. *)
Theorem CircularWire_curve_array_columns (self : CircularWire.t)
  (ts : list R) :
  CircularWire.curve_array self ts = map (CircularWire.curve self) ts.
Proof.
  unfold CircularWire.curve_array, CircularWire.curve.
  apply map_ext. intros tk. rewrite !fvscale_fvmuls. reflexivity.
Qed.

(** ** Orientation of a finite wire, distance from an infinite wire, and a
    point on a quadrature node *)

Lemma norm_sub_comm (u v : rvec) :
  RVec.norm (RVec.sub u v) = RVec.norm (RVec.sub v u).
Proof. unfold RVec.norm. simpl. f_equal. ring. Qed.

Lemma cross_sub_swap (a b v : rvec) :
  RVec.cross (RVec.sub a b) v = RVec.opp (RVec.cross (RVec.sub b a) v).
Proof. rvec_ring. Qed.

Lemma foot_swap (a b p : rvec) :
  a <> b -> Spec.foot b a p = Spec.foot a b p.
Proof.
  intros Hab.
  assert (Hd : RVec.sub b a <> RVec.zero)
    by (apply sub_neq_zero; congruence).
  assert (Hd' : RVec.sub a b <> RVec.zero) by (apply sub_neq_zero; exact Hab).
  apply dot_self_pos in Hd, Hd'.
  unfold Spec.foot. cbn zeta. unfold RVec.dot in *. simpl in Hd, Hd'.
  apply rvec_eq; simpl; field; repeat split; nra.
Qed.

Lemma on_line_swap (a b p : rvec) :
  Spec.on_line b (RVec.sub a b) p -> Spec.on_line a (RVec.sub b a) p.
Proof. intros [s ->]. exists (1 - s). rvec_ring. Qed.

Lemma cross_scale_r (k : R) (u v : rvec) :
  RVec.cross u (RVec.scale k v) = RVec.scale k (RVec.cross u v).
Proof. rvec_ring. Qed.

Lemma matmul_row_hits_nonfinite (p : fvec) (g : R -> fvec) (x w : R)
  (l : list (R * R)) :
  In (x, w) l ->
  g x = nonfinite_vec ->
  np_matmul_row (map Fin (map snd l)) (map (fun xw => g (fst xw)) l)
  = nonfinite_vec.
Proof.
  intros Hin Hg. induction l as [| [x0 w0] l IH]; [contradiction |].
  cbn [map fst snd np_matmul_row].
  destruct Hin as [Heq | Hin].
  - injection Heq as -> ->. rewrite Hg, fvscale_nonfinite.
    apply fvadd_nonfinite_l.
  - rewrite (IH Hin). apply fvadd_nonfinite_r.
Qed.

Lemma circular_ft_shape (self : CircularWire.t) (p : rvec)
  (l : list (R * R)) :
  let t := map (fun xk => xk * PI) (map fst l) in
  let pt := CircularWire.curve_array self t in
  let dl :=
    map (fun tk =>
           fvscale (Fin (CircularWire.radius self))
             (fvadd (fvneg (fvmuls (CircularWire.axis_x self) (fsin (Fin tk))))
                    (fvmuls (CircularWire.axis_y self) (fcos (Fin tk)))))
        t in
  let r := map (fun ptk => fvsub (vfin p) ptk) pt in
  let r_norm_3 := map (fun rk => fpow (np_norm rk) 3) r in
  map (fun c => fvdivs (fst c) (snd c))
      (combine (map (fun c => np_cross (fst c) (snd c)) (combine dl r))
               r_norm_3)
  = map (fun xw =>
           let tk := fst xw * PI in
           let rk := fvsub (vfin p) (CircularWire.curve self tk) in
           fvdivs
             (np_cross
                (fvscale (Fin (CircularWire.radius self))
                   (fvadd
                      (fvneg (fvmuls (CircularWire.axis_x self)
                                (fsin (Fin tk))))
                      (fvmuls (CircularWire.axis_y self) (fcos (Fin tk)))))
                rk)
             (fpow (np_norm rk) 3))
        l.
Proof.
  cbn zeta. unfold CircularWire.curve_array, CircularWire.curve.
  induction l as [| [xk wk] l IH]; [reflexivity |].
  cbn [map combine fst snd]. f_equal; [| exact IH].
  rewrite !fvscale_fvmuls. reflexivity.
Qed.

Section Orientation.
Variable mu0 : R.

(** X21.  A finite straight wire is oriented from [p1] to [p2]: exchanging
    the end points and reversing the current gives the same field at every
    point off the line. *)
Theorem FiniteStraightWire_magnetic_field_reversed
  (a b p : rvec) (I : R) :
  a <> b ->
  ~ Spec.on_line a (RVec.sub b a) p ->
  FiniteStraightWire.magnetic_field mu0
    {| FiniteStraightWire.p1 := b; FiniteStraightWire.p2 := a;
       FiniteStraightWire.current := - I |} p
  = FiniteStraightWire.magnetic_field mu0
      {| FiniteStraightWire.p1 := a; FiniteStraightWire.p2 := b;
         FiniteStraightWire.current := I |} p.
Proof.
  intros Hab Hoff.
  assert (Hba : b <> a) by congruence.
  assert (Hoff' : ~ Spec.on_line b (RVec.sub a b) p)
    by (intros H; apply Hoff, on_line_swap, H).
  rewrite (finite_wire_eval mu0
             {| FiniteStraightWire.p1 := b; FiniteStraightWire.p2 := a;
                FiniteStraightWire.current := - I |} p Hba Hoff').
  rewrite (finite_wire_eval mu0
             {| FiniteStraightWire.p1 := a; FiniteStraightWire.p2 := b;
                FiniteStraightWire.current := I |} p Hab Hoff).
  cbn [FiniteStraightWire.p1 FiniteStraightWire.p2 FiniteStraightWire.current].
  f_equal.
  assert (Hd : RVec.sub b a <> RVec.zero)
    by (apply sub_neq_zero; congruence).
  pose proof (off_line_cross _ _ _ Hd Hoff) as Hc.
  rewrite <- cross_foot in Hc.
  assert (Hpf : RVec.sub p (Spec.foot a b p) <> RVec.zero).
  { intros H. apply Hc. rewrite H. apply cross_zero_r. }
  assert (Hpa : RVec.sub p a <> RVec.zero).
  { apply sub_neq_zero. intros ->. apply Hoff. exists 0. rvec_ring. }
  assert (Hpb : RVec.sub p b <> RVec.zero).
  { apply sub_neq_zero. intros ->. apply Hoff. exists 1. rvec_ring. }
  apply norm_neq_0 in Hc, Hpf, Hpa, Hpb, Hd.
  unfold Spec.finite_wire_field, Spec.direction_cosine, RVec.normalize.
  cbn zeta.
  rewrite (foot_swap a b p Hab), (norm_sub_comm a b), cross_sub_swap, norm_opp.
  set (n1 := RVec.norm (RVec.sub p a)) in *.
  set (n2 := RVec.norm (RVec.sub p b)) in *.
  set (nd := RVec.norm (RVec.sub b a)) in *.
  set (nf := RVec.norm (RVec.sub p (Spec.foot a b p))) in *.
  set (nc := RVec.norm (RVec.cross (RVec.sub b a)
                          (RVec.sub p (Spec.foot a b p)))) in *.
  set (c := RVec.cross (RVec.sub b a) (RVec.sub p (Spec.foot a b p))).
  clearbody c n1 n2 nd nf nc.
  apply rvec_eq; unfold RVec.dot; simpl; field; repeat split;
    auto using PI_neq_0.
Qed.

(** X22.  The field of an infinite straight wire falls off with the
    distance: moving the point from [anchor + r] to [anchor + k r],
    [k > 0], divides every component of the field by [k]. *)
Theorem InfiniteStraightWire_magnetic_field_inverse_distance
  (self : InfiniteStraightWire.t) (d r : rvec) (k : R) :
  InfiniteStraightWire.direction self = vfin d ->
  RVec.cross d r <> RVec.zero ->
  0 < k ->
  InfiniteStraightWire.magnetic_field mu0 self
    (RVec.add (InfiniteStraightWire.p0 self) (RVec.scale k r))
  = fvdivs (InfiniteStraightWire.magnetic_field mu0 self
              (RVec.add (InfiniteStraightWire.p0 self) r))
           (Fin k).
Proof.
  intros Hd Hc Hk.
  assert (Hck : RVec.cross d (RVec.scale k r) <> RVec.zero).
  { rewrite cross_scale_r. apply scale_neq_zero; [lra | exact Hc]. }
  rewrite (infinite_wire_eval mu0 self d _ Hd)
    by (rewrite add_sub_cancel; exact Hck).
  rewrite (infinite_wire_eval mu0 self d _ Hd)
    by (rewrite add_sub_cancel; exact Hc).
  rewrite fvdivs_fin by lra. f_equal.
  unfold Spec.infinite_wire_field. cbn zeta.
  rewrite !add_sub_cancel, cross_scale_r, norm_scale_pos by exact Hk.
  apply norm_neq_0 in Hc.
  set (nc := RVec.norm (RVec.cross d r)) in *.
  set (c := RVec.cross d r). clearbody c nc.
  apply rvec_eq; simpl; field; repeat split; auto using PI_neq_0; lra.
Qed.

(** X23.  When the point is the loop point at one of the cached quadrature
    nodes, nothing is raised: the method returns an array none of whose
    entries is a finite number. *)
Theorem CircularWire_magnetic_field_at_node
  (self : CircularWire.t) (p : rvec) (x w : R) :
  In (x, w) (CircularWire.roots_legendre self) ->
  CircularWire.curve self (x * PI) = vfin p ->
  CircularWire.magnetic_field mu0 self p = nonfinite_vec.
Proof.
  intros Hin Hp. unfold CircularWire.magnetic_field. cbn zeta.
  rewrite circular_ft_shape. cbn zeta.
  rewrite (matmul_row_hits_nonfinite (vfin p)
             (fun xk =>
                fvdivs
                  (np_cross
                     (fvscale (Fin (CircularWire.radius self))
                        (fvadd
                           (fvneg (fvmuls (CircularWire.axis_x self)
                                     (fsin (Fin (xk * PI)))))
                           (fvmuls (CircularWire.axis_y self)
                                   (fcos (Fin (xk * PI))))))
                     (fvsub (vfin p) (CircularWire.curve self (xk * PI))))
                  (fpow (np_norm
                           (fvsub (vfin p)
                                  (CircularWire.curve self (xk * PI)))) 3))
             x w _ Hin).
  - rewrite fvscale_nonfinite. reflexivity.
  - rewrite Hp. autorewrite with fin. rewrite sub_self, norm_zero.
    replace (0 ^ 3) with 0 by ring. apply fvdivs_zero.
Qed.

End Orientation.

(** ** The further properties at concrete sources *)

Lemma origin_not_e_x : RVec.zero <> e_x.
Proof. intros H. apply (f_equal vx) in H. simpl in H. lra. Defined.

Lemma e_z_on_z_axis : Spec.on_line RVec.zero e_z e_z.
Proof. exists 1. apply rvec_eq; simpl; ring. Defined.

Lemma two_e_x_on_x_line :
  Spec.on_line RVec.zero (RVec.sub e_x RVec.zero) (V3 2 0 0).
Proof. exists 2. apply rvec_eq; simpl; ring. Defined.

Lemma e_y_off_x_curve (t : R) : e_y <> x_curve t.
Proof. intros H. apply (f_equal vy) in H. simpl in H. lra. Defined.

Lemma cross_e_z_e_x_not_zero : RVec.cross e_z e_x <> RVec.zero.
Proof. intros H. apply (f_equal vy) in H. simpl in H. lra. Defined.

Lemma InfiniteStraightWire_magnetic_field_on_axis_witness :
  InfiniteStraightWire.magnetic_field mu0_SI z_wire e_z = nonfinite_vec.
Proof.
  exact (InfiniteStraightWire_magnetic_field_on_axis mu0_SI z_wire e_z e_z
           eq_refl e_z_on_z_axis).
Defined.

Lemma InfiniteStraightWire_zero_direction_field_witness :
  InfiniteStraightWire.magnetic_field mu0_SI
    {| InfiniteStraightWire.direction :=
         fvdivs (vfin RVec.zero) (np_norm (vfin RVec.zero));
       InfiniteStraightWire.p0 := RVec.zero;
       InfiniteStraightWire.current := 1 |} e_x
  = nonfinite_vec.
Proof.
  exact (InfiniteStraightWire_zero_direction_field mu0_SI RVec.zero 1 _ e_x
           eq_refl).
Defined.

Lemma FiniteStraightWire_magnetic_field_on_line_witness :
  FiniteStraightWire.magnetic_field mu0_SI x_segment (V3 2 0 0)
  = nonfinite_vec.
Proof.
  exact (FiniteStraightWire_magnetic_field_on_line mu0_SI x_segment
           (V3 2 0 0) origin_not_e_x two_e_x_on_x_line).
Defined.

Lemma GeneralWire_magnetic_field_endpoint_sum_witness :
  exists B : rvec,
    GeneralWire.magnetic_field mu0_SI x_general_wire e_y 2
    = Ok (Array (vfin B)).
Proof.
  assert (Hn : (1 <= 2)%Z) by lia.
  eexists.
  exact (GeneralWire_magnetic_field_endpoint_sum mu0_SI x_general_wire
           x_curve e_y 2 Hn (fun t => eq_refl)
           (fun i _ => e_y_off_x_curve _)).
Defined.

Lemma GeneralWire_magnetic_field_no_segments_witness :
  GeneralWire.magnetic_field mu0_SI x_general_wire e_y (-3)
  = Ok (Scalar (Fin 0)).
Proof.
  assert (Hn : (-3 <= 0)%Z) by lia.
  exact (GeneralWire_magnetic_field_no_segments mu0_SI x_general_wire e_y
           (-3) Hn).
Defined.

Lemma GeneralWire_magnetic_field_at_sample_witness :
  GeneralWire.magnetic_field mu0_SI x_general_wire
    (x_curve (0 + INR 1 * ((1 - 0) / IZR 2))) 2
  = Ok (Array nonfinite_vec).
Proof.
  assert (Hi : (1 <= 1 <= Z.to_nat 2)%nat) by (simpl; lia).
  exact (GeneralWire_magnetic_field_at_sample mu0_SI x_general_wire
           (x_curve (0 + INR 1 * ((1 - 0) / IZR 2))) 2 1 Hi eq_refl).
Defined.

Lemma FiniteStraightWire_to_GeneralWire_field_witness :
  exists (gw : GeneralWire.t) (B : rvec),
    FiniteStraightWire.to_GeneralWire x_segment = Ok gw
    /\ GeneralWire.magnetic_field mu0_SI gw e_y 4 = Ok (Array (vfin B)).
Proof.
  assert (Hn : (1 <= 4)%Z) by lia.
  destruct (FiniteStraightWire_to_GeneralWire_field mu0_SI x_segment e_y 4
              Hn e_y_off_x_axis) as (gw & Hgw & HB).
  exists gw. eexists. split; [exact Hgw | exact HB].
Defined.

Lemma CircularWire_to_GeneralWire_field_witness :
  exists (gw : GeneralWire.t) (B : rvec),
    CircularWire.to_GeneralWire unit_loop = Ok gw
    /\ GeneralWire.magnetic_field mu0_SI gw e_z 4 = Ok (Array (vfin B)).
Proof.
  assert (Hn : (1 <= 4)%Z) by lia.
  destruct (CircularWire_to_GeneralWire_field mu0_SI unit_loop e_x e_y e_z 4
              Hn eq_refl eq_refl e_z_off_unit_loop) as (gw & Hgw & HB).
  exists gw. eexists. split; [exact Hgw | exact HB].
Defined.

Lemma MagneticDipole_magnetic_field_even_witness :
  MagneticDipole.magnetic_field mu0_SI z_dipole (RVec.add RVec.zero e_y)
  = MagneticDipole.magnetic_field mu0_SI z_dipole (RVec.sub RVec.zero e_y).
Proof.
  exact (MagneticDipole_magnetic_field_even mu0_SI z_dipole e_y
           e_y_not_origin).
Defined.

Lemma MagneticDipole_magnetic_field_inverse_cube_witness :
  MagneticDipole.magnetic_field mu0_SI z_dipole
    (RVec.add RVec.zero (RVec.scale 2 e_y))
  = fvdivs (MagneticDipole.magnetic_field mu0_SI z_dipole
              (RVec.add RVec.zero e_y))
           (Fin (2 ^ 3)).
Proof.
  assert (Hk : 0 < 2) by lra.
  exact (MagneticDipole_magnetic_field_inverse_cube mu0_SI z_dipole e_y 2
           e_y_not_origin Hk).
Defined.

Lemma MagneticDipole_magnetic_field_additive_witness :
  MagneticDipole.magnetic_field mu0_SI
    {| MagneticDipole.moment := RVec.add e_z e_x;
       MagneticDipole.p0 := RVec.zero |} e_y
  = fvadd
      (MagneticDipole.magnetic_field mu0_SI
         {| MagneticDipole.moment := e_z; MagneticDipole.p0 := RVec.zero |}
         e_y)
      (MagneticDipole.magnetic_field mu0_SI
         {| MagneticDipole.moment := e_x; MagneticDipole.p0 := RVec.zero |}
         e_y).
Proof.
  exact (MagneticDipole_magnetic_field_additive mu0_SI e_z e_x RVec.zero e_y
           e_y_not_origin).
Defined.

Lemma InfiniteStraightWire_magnetic_field_perpendicular_witness :
  exists B : rvec,
    InfiniteStraightWire.magnetic_field mu0_SI z_wire e_x = vfin B
    /\ RVec.dot B e_z = 0
    /\ RVec.dot B (RVec.sub e_x RVec.zero) = 0.
Proof.
  exact (InfiniteStraightWire_magnetic_field_perpendicular mu0_SI z_wire
           e_z e_x eq_refl e_z_not_zero e_x_off_z_axis).
Defined.

Lemma InfiniteStraightWire_magnetic_field_along_axis_witness :
  InfiniteStraightWire.magnetic_field mu0_SI z_wire
    (RVec.add e_x (RVec.scale 5 e_z))
  = InfiniteStraightWire.magnetic_field mu0_SI z_wire e_x.
Proof.
  exact (InfiniteStraightWire_magnetic_field_along_axis mu0_SI z_wire e_z
           e_x 5 eq_refl).
Defined.

Lemma FiniteStraightWire_magnetic_field_perpendicular_witness :
  exists B : rvec,
    FiniteStraightWire.magnetic_field mu0_SI x_segment e_y = vfin B
    /\ RVec.dot B (RVec.sub e_x RVec.zero) = 0
    /\ RVec.dot B (RVec.sub e_y (Spec.foot RVec.zero e_x e_y)) = 0.
Proof.
  exact (FiniteStraightWire_magnetic_field_perpendicular mu0_SI x_segment
           e_y origin_not_e_x e_y_off_x_axis).
Defined.

Lemma InfiniteStraightWire_init_unit_direction_witness :
  exists (self : InfiniteStraightWire.t) (u : rvec),
    InfiniteStraightWire.init (V3 0 0 2) RVec.zero 1 = Ok self
    /\ InfiniteStraightWire.direction self = vfin u
    /\ RVec.norm u = 1.
Proof.
  assert (Hd : V3 0 0 2 <> RVec.zero).
  { intros H. apply (f_equal vz) in H. simpl in H. lra. }
  destruct (InfiniteStraightWire_init_unit_direction (V3 0 0 2) RVec.zero 1
              Hd) as (self & u & Hinit & Hdir & Hu & _).
  exists self, u. repeat split; assumption.
Defined.

Lemma init_ignores_length_witness :
  InfiniteStraightWire.init (RVec.scale 2 e_z) RVec.zero 1
  = InfiniteStraightWire.init e_z RVec.zero 1
  /\ CircularWire.init two_point_rule (RVec.scale 2 e_z) RVec.zero 1 1 2
     = CircularWire.init two_point_rule e_z RVec.zero 1 1 2.
Proof.
  assert (Hk : 0 < 2) by lra.
  destruct (init_ignores_length two_point_rule 2 Hk) as [Hwire Hloop].
  split; [apply Hwire | apply Hloop].
Defined.

Lemma CircularWire_curve_on_circle_witness :
  exists (self : CircularWire.t) (q : rvec),
    CircularWire.init two_point_rule (V3 0 3 4) RVec.zero 2 1 2 = Ok self
    /\ CircularWire.curve self 1 = vfin q
    /\ RVec.norm (RVec.sub q RVec.zero) = 2.
Proof.
  assert (Hn : V3 0 3 4 <> RVec.zero).
  { intros H. apply (f_equal vz) in H. simpl in H. lra. }
  assert (Hr : 2 > 0) by lra.
  assert (Hord : (1 <= 2)%Z) by lia.
  destruct (CircularWire_init_radius_pos two_point_rule (V3 0 3 4) RVec.zero
              2 1 2 Hr Hord) as (self & Hself & _).
  destruct (CircularWire_curve_on_circle two_point_rule (V3 0 3 4) RVec.zero
              2 1 2 self 1 Hn Hself) as (q & Hq & Hdist & _).
  exists self, q. repeat split; assumption.
Defined.

Lemma FiniteStraightWire_magnetic_field_reversed_witness :
  FiniteStraightWire.magnetic_field mu0_SI
    {| FiniteStraightWire.p1 := e_x; FiniteStraightWire.p2 := RVec.zero;
       FiniteStraightWire.current := - (1) |} e_y
  = FiniteStraightWire.magnetic_field mu0_SI
      {| FiniteStraightWire.p1 := RVec.zero; FiniteStraightWire.p2 := e_x;
         FiniteStraightWire.current := 1 |} e_y.
Proof.
  exact (FiniteStraightWire_magnetic_field_reversed mu0_SI RVec.zero e_x e_y
           1 origin_not_e_x e_y_off_x_axis).
Defined.

Lemma InfiniteStraightWire_magnetic_field_inverse_distance_witness :
  InfiniteStraightWire.magnetic_field mu0_SI z_wire
    (RVec.add RVec.zero (RVec.scale 2 e_x))
  = fvdivs (InfiniteStraightWire.magnetic_field mu0_SI z_wire
              (RVec.add RVec.zero e_x))
           (Fin 2).
Proof.
  assert (Hk : 0 < 2) by lra.
  exact (InfiniteStraightWire_magnetic_field_inverse_distance mu0_SI z_wire
           e_z e_x 2 eq_refl cross_e_z_e_x_not_zero Hk).
Defined.

Lemma CircularWire_magnetic_field_at_node_witness :
  let t := / sqrt 3 * PI in
  CircularWire.magnetic_field mu0_SI unit_loop
    (RVec.add
       (RVec.scale 1
          (RVec.add (RVec.scale (cos t) e_x) (RVec.scale (sin t) e_y)))
       RVec.zero)
  = nonfinite_vec.
Proof.
  assert (Hin : In (/ sqrt 3, 1) (CircularWire.roots_legendre unit_loop))
    by (right; left; reflexivity).
  intros t.
  assert (Hp : CircularWire.curve unit_loop (/ sqrt 3 * PI)
               = vfin (RVec.add
                         (RVec.scale 1
                            (RVec.add (RVec.scale (cos t) e_x)
                                      (RVec.scale (sin t) e_y)))
                         RVec.zero))
    by reflexivity.
  exact (CircularWire_magnetic_field_at_node mu0_SI unit_loop _ (/ sqrt 3) 1
           Hin Hp).
Defined.
